(** * go-linq: terminal operators of [result.go]

    A shallow embedding of the terminal operators of package [linq]
    (file [result.go]) and the properties its specification states about
    them.

    Conventions of the embedding:
    - an element ([interface{}]) is a [value]: a dynamic type tag with its
      payload; integers carry a [Z] and fixed-width arithmetic wraps
      explicitly ([add64], [addu64]); floats are IEEE binary64 ([float]);
    - a [Query] is a finite in-memory sequence; [Iterate] hands out a fresh
      cursor, and every call of the cursor is counted, so that "how far did
      the operator read" is a number one can state theorems about;
    - a Go panic is the [Panic] case of [outcome]. *)

From Stdlib Require Import String ZArith List Bool Lia Permutation.
From Stdlib Require Import PrimFloat SpecFloat FloatOps FloatAxioms.
Import ListNotations.
Local Open Scope list_scope.

Set Implicit Arguments.

(** ** Panics *)

Inductive outcome (A : Type) : Type :=
| Ok (a : A)
| Panic (msg : string).

Arguments Ok {A} a.
Arguments Panic {A} msg.

Definition bind {A B : Type} (r : outcome A) (k : A -> outcome B) : outcome B :=
  match r with
  | Ok a => k a
  | Panic msg => Panic msg
  end.

Definition fmap {A B : Type} (f : A -> B) (r : outcome A) : outcome B :=
  bind r (fun a => Ok (f a)).

Notation "x <- r ;; k" := (bind r (fun x => k))
  (at level 61, r at next level, right associativity).
Notation "' p <- r ;; k" := (bind r (fun p => k))
  (at level 61, p strict pattern, r at next level, right associativity).

(** ** Elements *)

Inductive signedKind : Type := Int | Int8 | Int16 | Int32 | Int64.
Inductive unsignedKind : Type := Uint | Uint8 | Uint16 | Uint32 | Uint64.
Inductive floatKind : Type := Float32 | Float64.

(** The dynamic values the operators of this file inspect.  [VNil] is the
    nil interface.  A [VFloat Float32 f] carries the binary64 image of its
    float32 payload (that conversion is exact). *)
Inductive value : Type :=
| VNil
| VBool (b : bool)
| VSigned (k : signedKind) (z : Z)
| VUnsigned (k : unsignedKind) (z : Z)
| VFloat (k : floatKind) (f : float)
| VString (s : string).

(** Widths; [int] and [uint] are taken at 64 bits. *)
Definition signedBits (k : signedKind) : Z :=
  match k with Int8 => 8 | Int16 => 16 | Int32 => 32 | Int | Int64 => 64 end.

Definition unsignedBits (k : unsignedKind) : Z :=
  match k with Uint8 => 8 | Uint16 => 16 | Uint32 => 32 | Uint | Uint64 => 64 end.

(** A value is well formed when an integer payload fits its width. *)
Definition wf_value (v : value) : Prop :=
  match v with
  | VSigned k z => (- 2 ^ (signedBits k - 1) <= z < 2 ^ (signedBits k - 1))%Z
  | VUnsigned k z => (0 <= z < 2 ^ unsignedBits k)%Z
  | _ => True
  end.

Definition signedKind_eqb (a b : signedKind) : bool :=
  match a, b with
  | Int, Int | Int8, Int8 | Int16, Int16 | Int32, Int32 | Int64, Int64 => true
  | _, _ => false
  end.

Definition unsignedKind_eqb (a b : unsignedKind) : bool :=
  match a, b with
  | Uint, Uint | Uint8, Uint8 | Uint16, Uint16 | Uint32, Uint32
  | Uint64, Uint64 => true
  | _, _ => false
  end.

Definition floatKind_eqb (a b : floatKind) : bool :=
  match a, b with
  | Float32, Float32 | Float64, Float64 => true
  | _, _ => false
  end.

(** [item == item2] on two interface values: equal dynamic types and equal
    payloads; floats compare as IEEE numbers (NaN differs from itself). *)
Definition go_eq (x y : value) : bool :=
  match x, y with
  | VNil, VNil => true
  | VBool a, VBool b => Bool.eqb a b
  | VSigned k a, VSigned k' b => signedKind_eqb k k' && Z.eqb a b
  | VUnsigned k a, VUnsigned k' b => unsignedKind_eqb k k' && Z.eqb a b
  | VFloat k a, VFloat k' b => floatKind_eqb k k' && PrimFloat.eqb a b
  | VString a, VString b => String.eqb a b
  | _, _ => false
  end.

(** ** The iteration protocol

    [Query] and [Iterator] are declared outside [result.go]; the operators
    only use [q.Iterate()] and the returned [next]; [call next] is the Go
    call [next()].  A cursor is the list of elements still to be produced
    together with the number of calls made so far; an exhausted cursor
    answers [(nil, false)], and keeps doing so. *)

Definition Query : Type := list value.

Record Iterator : Type := mkIterator { pending : list value; calls : nat }.

Definition Iterate (q : Query) : Iterator := mkIterator q 0.

Definition call (it : Iterator) : value * bool * Iterator :=
  match pending it with
  | [] => (VNil, false, mkIterator [] (S (calls it)))
  | item :: rest => (item, true, mkIterator rest (S (calls it)))
  end.

(** What one pass of a loop body does: run to its end with updated locals,
    [return], or panic. *)
Inductive flow (S R : Type) : Type :=
| Continue (s : S)
| Return (r : R)
| Raise (msg : string).

Arguments Continue {S R} s.
Arguments Return {S R} r.
Arguments Raise {S R} msg.

(** [for item, ok := next(); ok; item, ok = next() { body }], the loop every
    operator is built on.  The answer is how the loop ended ([Continue s]:
    the cursor ran dry with locals [s]) and the cursor it leaves behind. *)
Fixpoint range_items {S R : Type} (body : value -> S -> flow S R)
    (items : list value) (n : nat) (s : S) : flow S R * Iterator :=
  match items with
  | [] => (Continue s, mkIterator [] (Datatypes.S n))
  | item :: rest =>
      match body item s with
      | Continue s' => range_items body rest (Datatypes.S n) s'
      | Return r => (Return r, mkIterator rest (Datatypes.S n))
      | Raise msg => (Raise msg, mkIterator rest (Datatypes.S n))
      end
  end.

Definition for_next {S R : Type} (it : Iterator) (s : S)
    (body : value -> S -> flow S R) : flow S R * Iterator :=
  range_items body (pending it) (calls it) s.

(** Sequencing a fallible step inside a loop body. *)
Definition try {A S R : Type} (r : outcome A) (k : A -> flow S R) : flow S R :=
  match r with
  | Ok a => k a
  | Panic msg => Raise msg
  end.

(** The function's answer once its loop is over: the value of a [return]
    inside the loop, or what the code [after] the loop makes of the locals;
    beside it the number of cursor calls made. *)
Definition finish {S R : Type} (run : flow S R * Iterator)
    (after : S -> outcome R) : outcome R * nat :=
  match run with
  | (Continue s, it) => (after s, calls it)
  | (Return r, it) => (Ok r, calls it)
  | (Raise msg, it) => (Panic msg, calls it)
  end.

Definition returning {S R : Type} (run : flow S R * Iterator)
    (fallthrough : S -> R) : outcome R * nat :=
  finish run (fun s => Ok (fallthrough s)).

(** A predicate [func(interface{}) bool]; like any Go function it may
    panic. *)
Definition predicate : Type := value -> outcome bool.

Definition pure (p : value -> bool) : predicate := fun item => Ok (p item).

(** ** Existence checks *)

(** [func (q Query) All(predicate func(interface{}) bool) bool] *)
Definition All (q : Query) (predicate : predicate) : outcome bool * nat :=
  let next := Iterate q in
  returning
    (for_next next tt (fun item _ =>
       try (predicate item) (fun holds =>
         if negb holds then Return false else Continue tt)))
    (fun _ => true).

(** [func (q Query) Any() bool] *)
Definition Any (q : Query) : bool * nat :=
  let '(_, ok, it) := call (Iterate q) in
  (ok, calls it).

(** [func (q Query) AnyWith(predicate func(interface{}) bool) bool] *)
Definition AnyWith (q : Query) (predicate : predicate) : outcome bool * nat :=
  let next := Iterate q in
  returning
    (for_next next tt (fun item _ =>
       try (predicate item) (fun holds =>
         if holds then Return true else Continue tt)))
    (fun _ => false).

(** ** Selection *)

(** [func (q Query) First() interface{}] *)
Definition First (q : Query) : value * nat :=
  let '(item, _, it) := call (Iterate q) in
  (item, calls it).

(** [func (q Query) FirstWith(predicate func(interface{}) bool) interface{}] *)
Definition FirstWith (q : Query) (predicate : predicate) : outcome value * nat :=
  let next := Iterate q in
  returning
    (for_next next tt (fun item _ =>
       try (predicate item) (fun holds =>
         if holds then Return item else Continue tt)))
    (fun _ => VNil).

(** [func (q Query) SingleWith(predicate func(interface{}) bool) (r interface{})]
    The locals are [(found, r)]; [r] starts as the zero value nil. *)
Definition SingleWith (q : Query) (predicate : predicate) : outcome value * nat :=
  let next := Iterate q in
  let found := false in
  returning
    (for_next next (found, VNil) (fun item '(found, r) =>
       try (predicate item) (fun holds =>
         if holds then
           if (found : bool) then Return VNil
           else Continue (true, item)
         else Continue (found, r))))
    (fun '(_, r) => r).

(** ** Counting and last-element selection *)

(** [func (q Query) CountWith(predicate func(interface{}) bool) (r int)] *)
Definition CountWith (q : Query) (predicate : predicate) : outcome Z * nat :=
  let next := Iterate q in
  returning
    (for_next next 0%Z (fun item r =>
       try (predicate item) (fun holds =>
         if holds then Continue (r + 1)%Z else Continue r)))
    (fun r => r).

(** [func (q Query) LastWith(predicate func(interface{}) bool) (r interface{})] *)
Definition LastWith (q : Query) (predicate : predicate) : outcome value * nat :=
  let next := Iterate q in
  returning
    (for_next next VNil (fun item r =>
       try (predicate item) (fun holds =>
         if holds then Continue item else Continue r)))
    (fun r => r).

(** ** Numeric dispatch *)

(** Two's-complement 64-bit arithmetic: [r += conv(item)] on [int64] and
    on [uint64]. *)
Definition wrap64 (z : Z) : Z := ((z + 2 ^ 63) mod 2 ^ 64 - 2 ^ 63)%Z.
Definition wrapu64 (z : Z) : Z := (z mod 2 ^ 64)%Z.
Definition add64 (a b : Z) : Z := wrap64 (a + b).
Definition addu64 (a b : Z) : Z := wrapu64 (a + b).

(** [float64(n)] for an integer [n]: rounding to nearest, ties to even. *)
Definition float64_of_Z (z : Z) : float :=
  SF2Prim (binary_normalize prec emax z 0 false).

Module math.
(** [math.NaN()] *)
Definition NaN : float := PrimFloat.nan.
End math.

(** Modelled from the spec: [getIntConverter] is not part of [result.go].
    "Signed-integer family -> converter widens to the largest signed
    representation"; the converter is "selected once from the first element
    of a sequence and then applied uniformly to all subsequent elements".
    An element outside the family is a caller error: the conversion
    panics. *)
Definition getIntConverter (data : value) : value -> outcome Z :=
  match data with
  | VSigned _ _ => fun i =>
      match i with
      | VSigned _ z => Ok z
      | _ => Panic "interface conversion: not a signed integer"
      end
  | _ => fun _ => Panic "no signed-integer converter for the first element"
  end.

(** Modelled from the spec: [getUIntConverter] is not part of [result.go].
    "Unsigned-integer family -> converter widens to the largest unsigned
    representation." *)
Definition getUIntConverter (data : value) : value -> outcome Z :=
  match data with
  | VUnsigned _ _ => fun i =>
      match i with
      | VUnsigned _ z => Ok z
      | _ => Panic "interface conversion: not an unsigned integer"
      end
  | _ => fun _ => Panic "no unsigned-integer converter for the first element"
  end.

(** Modelled from the spec: [getFloatConverter] is not part of [result.go].
    "All other runtime types (including floating point) -> a float-widening
    converter ...; if no such conversion exists the behavior is a fatal
    construction error." *)
Definition getFloatConverter (data : value) : value -> outcome float :=
  match data with
  | VFloat _ _ => fun i =>
      match i with
      | VFloat _ f => Ok f
      | _ => Panic "interface conversion: not a float"
      end
  | _ => fun _ => Panic "no float converter for the first element"
  end.

(** [func (q Query) SumInts() (r int64)] *)
Definition SumInts (q : Query) : outcome Z * nat :=
  let next := Iterate q in
  let '(item, ok, next) := call next in
  if negb ok then (Ok 0%Z, calls next)
  else
    let conv := getIntConverter item in
    match conv item with
    | Panic msg => (Panic msg, calls next)
    | Ok r =>
        returning
          (for_next next r (fun item r =>
             try (conv item) (fun x => Continue (add64 r x))))
          (fun r => r)
    end.

(** [func (q Query) Average() (r float64)]
    The three arms of the type switch keep [(sum, n)] as loop locals; the
    closing [r / float64(n)] is shared. *)
Definition Average (q : Query) : outcome float * nat :=
  let next := Iterate q in
  let '(item, ok, next) := call next in
  if negb ok then (Ok math.NaN, calls next)
  else
    let n := 1%Z in
    match item with
    | VSigned _ _ =>
        let conv := getIntConverter item in
        match conv item with
        | Panic msg => (Panic msg, calls next)
        | Ok sum =>
            returning
              (for_next next (sum, n) (fun item '(sum, n) =>
                 try (conv item) (fun x => Continue (add64 sum x, n + 1)%Z)))
              (fun '(sum, n) => (float64_of_Z sum / float64_of_Z n)%float)
        end
    | VUnsigned _ _ =>
        let conv := getUIntConverter item in
        match conv item with
        | Panic msg => (Panic msg, calls next)
        | Ok sum =>
            returning
              (for_next next (sum, n) (fun item '(sum, n) =>
                 try (conv item) (fun x => Continue (addu64 sum x, n + 1)%Z)))
              (fun '(sum, n) => (float64_of_Z sum / float64_of_Z n)%float)
        end
    | _ =>
        let conv := getFloatConverter item in
        match conv item with
        | Panic msg => (Panic msg, calls next)
        | Ok r =>
            returning
              (for_next next (r, n) (fun item '(r, n) =>
                 try (conv item) (fun x => Continue ((r + x)%float, (n + 1)%Z))))
              (fun '(r, n) => (r / float64_of_Z n)%float)
        end
    end.

(** ** Extrema *)

(** The three-way answer of a comparer: [1] when [a > b], [-1] when
    [b > a], [0] otherwise. *)
Definition threeWay (a_gt_b b_gt_a : bool) : Z :=
  if a_gt_b then 1%Z else if b_gt_a then (-1)%Z else 0%Z.

Definition string_ltb (a b : string) : bool :=
  match String.compare a b with Lt => true | _ => false end.

(** Modelled from the spec: [getComparer] is not part of [result.go].
    "Selects a total-order comparison strategy from the sample's runtime
    type (numeric types compare by value; other ordered types compare by
    their natural order)", with answers in [{-1, 0, 1}].  Both arguments
    must have the sample's runtime type; anything else panics. *)
Definition getComparer (data : value) : value -> value -> outcome Z :=
  match data with
  | VSigned k _ => fun x y =>
      match x, y with
      | VSigned k1 a, VSigned k2 b =>
          if signedKind_eqb k1 k && signedKind_eqb k2 k
          then Ok (threeWay (b <? a)%Z (a <? b)%Z)
          else Panic "interface conversion: wrong integer type"
      | _, _ => Panic "interface conversion: not a signed integer"
      end
  | VUnsigned k _ => fun x y =>
      match x, y with
      | VUnsigned k1 a, VUnsigned k2 b =>
          if unsignedKind_eqb k1 k && unsignedKind_eqb k2 k
          then Ok (threeWay (b <? a)%Z (a <? b)%Z)
          else Panic "interface conversion: wrong integer type"
      | _, _ => Panic "interface conversion: not an unsigned integer"
      end
  | VFloat k _ => fun x y =>
      match x, y with
      | VFloat k1 a, VFloat k2 b =>
          if floatKind_eqb k1 k && floatKind_eqb k2 k
          then Ok (threeWay (PrimFloat.ltb b a) (PrimFloat.ltb a b))
          else Panic "interface conversion: wrong float type"
      | _, _ => Panic "interface conversion: not a float"
      end
  | VString _ => fun x y =>
      match x, y with
      | VString a, VString b => Ok (threeWay (string_ltb b a) (string_ltb a b))
      | _, _ => Panic "interface conversion: not a string"
      end
  | _ => fun _ _ => Panic "interface conversion: not an ordered type"
  end.

(** [func (q Query) Max() (r interface{})] *)
Definition Max (q : Query) : outcome value * nat :=
  let next := Iterate q in
  let '(item, ok, next) := call next in
  if negb ok then (Ok VNil, calls next)
  else
    let compare := getComparer item in
    let r := item in
    returning
      (for_next next r (fun item r =>
         try (compare item r) (fun c =>
           if (c >? 0)%Z then Continue item else Continue r)))
      (fun r => r).

(** [func (q Query) Min() (r interface{})] *)
Definition Min (q : Query) : outcome value * nat :=
  let next := Iterate q in
  let '(item, ok, next) := call next in
  if negb ok then (Ok VNil, calls next)
  else
    let compare := getComparer item in
    let r := item in
    returning
      (for_next next r (fun item r =>
         try (compare item r) (fun c =>
           if (c <? 0)%Z then Continue item else Continue r)))
      (fun r => r).

(** ** Sequence equality *)

(** [func (q Query) SequenceEqual(q2 Query) bool]
    The cursor of [q2] is a local of the loop over [q]; the answer comes
    with the number of calls made on each of the two cursors.  ([!=] does
    not panic on the values of this file, so the loop body never raises.) *)
Definition SequenceEqual (q q2 : Query) : bool * nat * nat :=
  let next := Iterate q in
  let next2 := Iterate q2 in
  match
    for_next next next2 (fun item next2 =>
      let '(item2, ok2, next2) := call next2 in
      if negb ok2 || negb (go_eq item item2)
      then Return (false, next2)
      else Continue next2)
  with
  | (Return (r, next2), next) => (r, calls next, calls next2)
  | (Continue next2, next) =>
      let '(_, ok2, next2) := call next2 in
      (negb ok2, calls next, calls next2)
  | (Raise _, next) => (false, calls next, 0)
  end.

(** ** Channels *)

(** A channel is known by the operations completed on it.  A send is taken
    to complete (some receiver drains the channel); sending on, or closing,
    a closed channel panics. *)
Inductive chanOp : Type :=
| Send (v : value)
| Close.

Definition channel : Type := list chanOp.

Definition isClose (op : chanOp) : bool :=
  match op with Close => true | Send _ => false end.

Definition closed (ch : channel) : bool := existsb isClose ch.

(** [ch <- v] *)
Definition send (ch : channel) (v : value) : outcome channel :=
  if closed ch then Panic "send on closed channel" else Ok (ch ++ [Send v]).

(** [close(ch)] *)
Definition close (ch : channel) : outcome channel :=
  if closed ch then Panic "close of closed channel" else Ok (ch ++ [Close]).

(** [func (q Query) ToChannel(result chan<- interface{})] *)
Definition ToChannel (q : Query) (result : channel) : outcome channel * nat :=
  let next := Iterate q in
  finish
    (for_next next result (fun item result =>
       try (send result item) (fun result => Continue result)))
    (fun result => close result).

(** ** Typed callbacks *)

(** Static types, as far as the operators of this file look at them. *)
Inductive gotype : Type :=
| TBool
| TSigned (k : signedKind)
| TUnsigned (k : unsignedKind)
| TFloat (k : floatKind)
| TString
| TInterface.

Definition gotype_eqb (a b : gotype) : bool :=
  match a, b with
  | TBool, TBool | TString, TString | TInterface, TInterface => true
  | TSigned k, TSigned k' => signedKind_eqb k k'
  | TUnsigned k, TUnsigned k' => unsignedKind_eqb k k'
  | TFloat k, TFloat k' => floatKind_eqb k k'
  | _, _ => false
  end.

(** The dynamic type of an element; the nil interface has none. *)
Definition typeOf (v : value) : option gotype :=
  match v with
  | VNil => None
  | VBool _ => Some TBool
  | VSigned k _ => Some (TSigned k)
  | VUnsigned k _ => Some (TUnsigned k)
  | VFloat k _ => Some (TFloat k)
  | VString _ => Some TString
  end.

(** Whether [reflect.ValueOf(v)] may be stored in, or passed as, a [t].
    [reflect.ValueOf(nil)] is the zero [reflect.Value], which neither
    [Set] nor [Call] accepts. *)
Definition assignable (v : value) (t : gotype) : bool :=
  match typeOf v with
  | None => false
  | Some t' => match t with TInterface => true | _ => gotype_eqb t' t end
  end.

(** A function value as reflection sees it: its signature and what a call
    does. *)
Record funcValue : Type := mkFunc {
  TypesIn : list gotype;
  TypesOut : list gotype;
  invoke : list value -> outcome (list value)
}.

(** What a parameter declared [interface{}], such as [predicateFn], may be
    handed: an ordinary value or a function. *)
Inductive argument : Type :=
| Plain (v : value)
| Func (f : funcValue).

(** Modelled from the spec: the adapter ([newGenericFunc],
    [simpleParamValidator], [newElemTypeSlice], [genericType],
    [genericFunc.Call]) is not part of [result.go].  A shape constraint
    lists, per parameter and per result, either "any" ([genericType]) or
    one exact type. *)
Inductive paramType : Type :=
| genericType
| exactType (t : gotype).

Definition newElemTypeSlice (items : list paramType) : list paramType := items.

Fixpoint shapeMatches (want : list paramType) (have : list gotype) : bool :=
  match want, have with
  | [], [] => true
  | w :: want', h :: have' =>
      match w with genericType => true | exactType t => gotype_eqb t h end
      && shapeMatches want' have'
  | _, _ => false
  end.

(** Modelled from the spec: "validates the callable's actual parameter
    count and types against the constraint". *)
Definition simpleParamValidator (In Out : list paramType) (f : funcValue) : bool :=
  shapeMatches In (TypesIn f) && shapeMatches Out (TypesOut f).

Record genericFunc : Type := mkGenericFunc { Cache : funcValue }.

(** Modelled from the spec: validation happens "at attachment time;
    mismatch is a fatal construction error naming the offending operator
    and parameter".  The answer is the wrapper or the error. *)
Definition newGenericFunc (methodName paramName : string) (fn : argument)
    (validateFunc : funcValue -> bool) : genericFunc + string :=
  match fn with
  | Plain _ =>
      inr (methodName ++ ": parameter [" ++ paramName
             ++ "] is not a function type")%string
  | Func f =>
      if validateFunc f then inl (mkGenericFunc f)
      else inr (methodName ++ ": parameter [" ++ paramName
                  ++ "] has a invalid function signature")%string
  end.

(** Modelled from the spec: the wrapper "performs the underlying call";
    the reflective call panics on an argument its parameter cannot take. *)
Definition Call (g : genericFunc) (item : value) : outcome value :=
  match TypesIn (Cache g) with
  | [t] =>
      if assignable item t
      then outs <- invoke (Cache g) [item] ;; Ok (hd VNil outs)
      else Panic "reflect: Call using a value of the wrong type"
  | _ => Panic "reflect: Call with wrong number of input arguments"
  end.

(** The type assertion [v.(bool)]. *)
Definition assertBool (v : value) : outcome bool :=
  match v with
  | VBool b => Ok b
  | _ => Panic "interface conversion: interface {} is not bool"
  end.

(** [func (q Query) AllT(predicateFn interface{}) bool] *)
Definition AllT (q : Query) (predicateFn : argument) : outcome bool * nat :=
  match newGenericFunc "AllT" "predicateFn" predicateFn
          (simpleParamValidator (newElemTypeSlice [genericType])
                                (newElemTypeSlice [exactType TBool])) with
  | inr err => (Panic err, 0)
  | inl predicateGenericFunc =>
      let predicateFunc := fun item =>
        v <- Call predicateGenericFunc item ;; assertBool v in
      All q predicateFunc
  end.

(** [func (q Query) AnyWithT(predicateFn interface{}) bool] *)
Definition AnyWithT (q : Query) (predicateFn : argument) : outcome bool * nat :=
  match newGenericFunc "AnyWithT" "predicateFn" predicateFn
          (simpleParamValidator (newElemTypeSlice [genericType])
                                (newElemTypeSlice [exactType TBool])) with
  | inr err => (Panic err, 0)
  | inl predicateGenericFunc =>
      let predicateFunc := fun item =>
        v <- Call predicateGenericFunc item ;; assertBool v in
      AnyWith q predicateFunc
  end.

(** [func (q Query) CountWithT(predicateFn interface{}) int] *)
Definition CountWithT (q : Query) (predicateFn : argument) : outcome Z * nat :=
  match newGenericFunc "CountWithT" "predicateFn" predicateFn
          (simpleParamValidator (newElemTypeSlice [genericType])
                                (newElemTypeSlice [exactType TBool])) with
  | inr err => (Panic err, 0)
  | inl predicateGenericFunc =>
      let predicateFunc := fun item =>
        v <- Call predicateGenericFunc item ;; assertBool v in
      CountWith q predicateFunc
  end.

(** [func (q Query) FirstWithT(predicateFn interface{}) interface{}] *)
Definition FirstWithT (q : Query) (predicateFn : argument) : outcome value * nat :=
  match newGenericFunc "FirstWithT" "predicateFn" predicateFn
          (simpleParamValidator (newElemTypeSlice [genericType])
                                (newElemTypeSlice [exactType TBool])) with
  | inr err => (Panic err, 0)
  | inl predicateGenericFunc =>
      let predicateFunc := fun item =>
        v <- Call predicateGenericFunc item ;; assertBool v in
      FirstWith q predicateFunc
  end.

(** [func (q Query) LastWithT(predicateFn interface{}) interface{}] *)
Definition LastWithT (q : Query) (predicateFn : argument) : outcome value * nat :=
  match newGenericFunc "LastWithT" "predicateFn" predicateFn
          (simpleParamValidator (newElemTypeSlice [genericType])
                                (newElemTypeSlice [exactType TBool])) with
  | inr err => (Panic err, 0)
  | inl predicateGenericFunc =>
      let predicateFunc := fun item =>
        v <- Call predicateGenericFunc item ;; assertBool v in
      LastWith q predicateFunc
  end.

(** [func (q Query) SingleWithT(predicateFn interface{}) interface{}] *)
Definition SingleWithT (q : Query) (predicateFn : argument) : outcome value * nat :=
  match newGenericFunc "SingleWithT" "predicateFn" predicateFn
          (simpleParamValidator (newElemTypeSlice [genericType])
                                (newElemTypeSlice [exactType TBool])) with
  | inr err => (Panic err, 0)
  | inl predicateGenericFunc =>
      let predicateFunc := fun item =>
        v <- Call predicateGenericFunc item ;; assertBool v in
      SingleWith q predicateFunc
  end.

(** The Go function [func(x T) bool { return p(x) }], for a predicate [p]
    on elements. *)
Definition typedPredicate (T : gotype) (p : predicate) : funcValue :=
  mkFunc [T] [TBool] (fun args =>
    match args with
    | [x] => holds <- p x ;; Ok [VBool holds]
    | _ => Panic "wrong number of arguments"
    end).

(** ** Reflective slices *)

Module reflect.

(** Backing arrays live in a store and are named by their position in
    it; allocation appends.  A slice value is a window on one array,
    starting at its first cell: the array's length is the capacity. *)
Definition heap : Type := list (list value).

Record SliceValue : Type := mkSlice {
  array : nat;
  Len : nat;
  Cap : nat;
  Elem : gotype
}.

(** The zero value of a type. *)
Definition zero (t : gotype) : value :=
  match t with
  | TBool => VBool false
  | TSigned k => VSigned k 0
  | TUnsigned k => VUnsigned k 0
  | TFloat k => VFloat k 0%float
  | TString => VString ""
  | TInterface => VNil
  end.

Definition load (h : heap) (a : nat) : list value := nth a h [].

Fixpoint update {A : Type} (i : nat) (x : A) (l : list A) : list A :=
  match l, i with
  | [], _ => []
  | _ :: l', O => x :: l'
  | y :: l', S i' => y :: update i' x l'
  end.

(** [reflect.MakeSlice(typ, len, cap)] *)
Definition MakeSlice (h : heap) (typ : gotype) (len cap : nat)
    : outcome (heap * SliceValue) :=
  if len <=? cap
  then Ok (h ++ [repeat (zero typ) cap], mkSlice (List.length h) len cap typ)
  else Panic "reflect.MakeSlice: len > cap".

(** [s.Slice(0, j)] *)
Definition Slice (s : SliceValue) (j : nat) : outcome SliceValue :=
  if j <=? Cap s then Ok (mkSlice (array s) j (Cap s) (Elem s))
  else Panic "reflect.Value.Slice: slice index out of bounds".

(** [reflect.Copy(dst, src)] *)
Definition Copy (h : heap) (dst src : SliceValue) : heap :=
  let n := Nat.min (Len dst) (Len src) in
  update (array dst)
    (firstn n (load h (array src)) ++ skipn n (load h (array dst))) h.

(** [s.Index(i).Set(reflect.ValueOf(x))] *)
Definition SetIndex (h : heap) (s : SliceValue) (i : nat) (x : value)
    : outcome heap :=
  if i <? Len s then
    if assignable x (Elem s)
    then Ok (update (array s) (update i x (load h (array s))) h)
    else Panic "reflect.Set: value is not assignable to the element type"
  else Panic "reflect: slice index out of range".

End reflect.

(** [for cap < newLen { cap *= 2 }], run for at most [fuel] doublings;
    [None] when that was not enough. *)
Fixpoint doubleUntil (fuel cap newLen : nat) : option nat :=
  if cap <? newLen then
    match fuel with
    | O => None
    | S fuel' => doubleUntil fuel' (cap * 2) newLen
    end
  else Some cap.

(** [func grow(s reflect.Value, extra uint) reflect.Value]
    The doubling loop is given [newLen] rounds, which is always enough
    from a capacity of at least one ([doubleUntil_enough]). *)
Definition grow (h : reflect.heap) (s : reflect.SliceValue) (extra : nat)
    : outcome (reflect.heap * reflect.SliceValue) :=
  let len := reflect.Len s in
  let newLen := len + extra in
  let cap := reflect.Cap s in
  if newLen <=? cap then
    s' <- reflect.Slice s newLen ;; Ok (h, s')
  else
    match (if cap =? 0 then Some extra else doubleUntil newLen cap newLen) with
    | None => Panic "grow: the doubling loop does not end"
    | Some cap =>
        ' (h, newSlice) <- reflect.MakeSlice h (reflect.Elem s) newLen cap ;;
        Ok (reflect.Copy h newSlice s, newSlice)
    end.

(** [func (q Query) ToSlice(result interface{})]
    [result] points at the caller's slice variable; the answer is the store
    together with the slice value written back through that pointer. *)
Definition ToSlice (q : Query) (h : reflect.heap) (result : reflect.SliceValue)
    : outcome (reflect.heap * reflect.SliceValue) * nat :=
  let slice := result in
  let next := Iterate q in
  let index := 0 in
  finish
    (for_next next (h, slice, index) (fun item '(h, slice, index) =>
       try (if reflect.Len slice <=? index then grow h slice 1
            else Ok (h, slice)) (fun '(h, slice) =>
       try (reflect.SetIndex h slice index item) (fun h =>
       Continue (h, slice, index + 1)))))
    (fun '(h, slice, index) =>
       s <- reflect.Slice slice index ;; Ok (h, s)).

(** ** Operators without a predicate *)

(** [func (q Query) Contains(value interface{}) bool] *)
Definition Contains (q : Query) (value : value) : outcome bool * nat :=
  let next := Iterate q in
  returning
    (for_next next tt (fun item _ =>
       if go_eq item value then Return true else Continue tt))
    (fun _ => false).

(** [func (q Query) Count() (r int)] *)
Definition Count (q : Query) : outcome Z * nat :=
  let next := Iterate q in
  returning
    (for_next next 0%Z (fun _ r => Continue (r + 1)%Z))
    (fun r => r).

(** [func (q Query) Last() (r interface{})] *)
Definition Last (q : Query) : outcome value * nat :=
  let next := Iterate q in
  returning
    (for_next next VNil (fun item _ => Continue item))
    (fun r => r).

(** [func (q Query) Results() (r []interface{})]
    The nil slice the function starts from is the empty list. *)
Definition Results (q : Query) : outcome (list value) * nat :=
  let next := Iterate q in
  returning
    (for_next next [] (fun item r => Continue (r ++ [item])))
    (fun r => r).

(** [func (q Query) Single() interface{}] *)
Definition Single (q : Query) : value * nat :=
  let next := Iterate q in
  let '(item, ok, next) := call next in
  if negb ok then (VNil, calls next)
  else
    let '(_, ok, next) := call next in
    if ok then (VNil, calls next)
    else (item, calls next).

(** ** The other sums *)

(** [func (q Query) SumUInts() (r uint64)] *)
Definition SumUInts (q : Query) : outcome Z * nat :=
  let next := Iterate q in
  let '(item, ok, next) := call next in
  if negb ok then (Ok 0%Z, calls next)
  else
    let conv := getUIntConverter item in
    match conv item with
    | Panic msg => (Panic msg, calls next)
    | Ok r =>
        returning
          (for_next next r (fun item r =>
             try (conv item) (fun x => Continue (addu64 r x))))
          (fun r => r)
    end.

(** [func (q Query) SumFloats() (r float64)] *)
Definition SumFloats (q : Query) : outcome float * nat :=
  let next := Iterate q in
  let '(item, ok, next) := call next in
  if negb ok then (Ok 0%float, calls next)
  else
    let conv := getFloatConverter item in
    match conv item with
    | Panic msg => (Panic msg, calls next)
    | Ok r =>
        returning
          (for_next next r (fun item r =>
             try (conv item) (fun x => Continue (r + x)%float)))
          (fun r => r)
    end.

(** ** Maps *)

(** A map value as reflection sees it: its key and element types and its
    entries, [None] for the nil map.  Entries are kept in the order of
    their last assignment; keys are compared with [==]. *)
Record MapValue : Type := mkMap {
  KeyType : gotype;
  ElemType : gotype;
  entries : option (list (value * value))
}.

(** The entries left once [key] is deleted. *)
Definition mapdelete (key : value) (es : list (value * value))
    : list (value * value) :=
  filter (fun e => negb (go_eq (fst e) key)) es.

(** [m.SetMapIndex(reflect.ValueOf(key), reflect.ValueOf(elem))]: the key
    must be assignable to the key type; a nil [elem] (the zero
    [reflect.Value]) deletes the key, also from a nil map; any other
    [elem] must be assignable to the element type and is stored under the
    key, which a nil map refuses. *)
Definition SetMapIndex (m : MapValue) (key elem : value) : outcome MapValue :=
  if assignable key (KeyType m) then
    match elem with
    | VNil =>
        Ok (mkMap (KeyType m) (ElemType m)
              (option_map (mapdelete key) (entries m)))
    | _ =>
        if assignable elem (ElemType m) then
          match entries m with
          | None => Panic "assignment to entry in nil map"
          | Some es =>
              Ok (mkMap (KeyType m) (ElemType m)
                    (Some (mapdelete key es ++ [(key, elem)])))
          end
        else Panic "reflect.Value.SetMapIndex: value is not assignable to the element type"
    end
  else Panic "reflect.Value.SetMapIndex: value is not assignable to the key type".

(** A selector [func(interface{}) interface{}]. *)
Definition selector : Type := value -> outcome value.

(** [func (q Query) ToMapBy(result interface{}, keySelector, valueSelector)]
    [result] points at the caller's map; the answer is the map left
    there. *)
Definition ToMapBy (q : Query) (result : MapValue)
    (keySelector valueSelector : selector) : outcome MapValue * nat :=
  let m := result in
  let next := Iterate q in
  returning
    (for_next next m (fun item m =>
       try (keySelector item) (fun key =>
       try (valueSelector item) (fun value =>
       try (SetMapIndex m key value) (fun m => Continue m)))))
    (fun m => m).

(** [func (q Query) ToMapByT(result, keySelectorFn, valueSelectorFn interface{})] *)
Definition ToMapByT (q : Query) (result : MapValue)
    (keySelectorFn valueSelectorFn : argument) : outcome MapValue * nat :=
  match newGenericFunc "ToMapByT" "keySelectorFn" keySelectorFn
          (simpleParamValidator (newElemTypeSlice [genericType])
                                (newElemTypeSlice [genericType])) with
  | inr err => (Panic err, 0)
  | inl keySelectorGenericFunc =>
      let keySelectorFunc := fun item => Call keySelectorGenericFunc item in
      match newGenericFunc "ToMapByT" "valueSelectorFn" valueSelectorFn
              (simpleParamValidator (newElemTypeSlice [genericType])
                                    (newElemTypeSlice [genericType])) with
      | inr err => (Panic err, 0)
      | inl valueSelectorGenericFunc =>
          let valueSelectorFunc := fun item =>
            Call valueSelectorGenericFunc item in
          ToMapBy q result keySelectorFunc valueSelectorFunc
      end
  end.

(** The Go function [func(x T) U { return f(x) }], for a selector [f]. *)
Definition typedSelector (T U : gotype) (f : selector) : funcValue :=
  mkFunc [T] [U] (fun args =>
    match args with
    | [x] => r <- f x ;; Ok [r]
    | _ => Panic "wrong number of arguments"
    end).

(** * Reference definitions

    What the properties below compare the operators with. *)

(** The lock-step comparison, as a recursion on the two sequences. *)
Fixpoint lockstep (q q2 : list value) : bool :=
  match q, q2 with
  | [], [] => true
  | item :: q', item2 :: q2' => go_eq item item2 && lockstep q' q2'
  | _, _ => false
  end.

(** The integer an element stands for (0 for anything else). *)
Definition intOf (v : value) : Z :=
  match v with
  | VSigned _ z | VUnsigned _ z => z
  | _ => 0%Z
  end.

(** The float an element stands for (0 for anything else). *)
Definition floatOf (v : value) : float :=
  match v with
  | VFloat _ f => f
  | _ => 0%float
  end.

(** The exact sum of the integers of a sequence. *)
Definition sumOf (q : list value) : Z :=
  fold_right (fun v acc => (intOf v + acc)%Z) 0%Z q.

Definition isSigned (v : value) : Prop :=
  match v with VSigned _ _ => True | _ => False end.

Definition isUnsigned (v : value) : Prop :=
  match v with VUnsigned _ _ => True | _ => False end.

Definition isFloat (v : value) : Prop :=
  match v with VFloat _ _ => True | _ => False end.

Definition int64_range (z : Z) : Prop := (- 2 ^ 63 <= z < 2 ^ 63)%Z.
Definition uint64_range (z : Z) : Prop := (0 <= z < 2 ^ 64)%Z.

(** A numeric sequence: well-formed elements of one family. *)
Definition numeric (q : list value) : Prop :=
  Forall wf_value q /\
  (Forall isSigned q \/ Forall isUnsigned q \/ Forall isFloat q).

(** The sum of a numeric sequence as [Average] forms it: in [int64] or
    [uint64] arithmetic and then converted for the integer families, in
    [float64] arithmetic from left to right for floats. *)
Definition sumAsFloat (q : list value) : float :=
  match q with
  | [] => 0%float
  | VSigned _ _ :: _ => float64_of_Z (wrap64 (sumOf q))
  | VUnsigned _ _ :: _ => float64_of_Z (wrapu64 (sumOf q))
  | x :: rest => fold_left PrimFloat.add (map floatOf rest) (floatOf x)
  end.

(** A comparer is a total order on the elements of a sequence when it
    answers on every pair of them and its answers are antisymmetric and
    transitive.  (Ties between different elements are allowed.) *)
Definition total_on (cmp : value -> value -> outcome Z) (l : list value) : Prop :=
  exists ord : value -> value -> Z,
    (forall a b, In a l -> In b l -> cmp a b = Ok (ord a b)) /\
    (forall a b, In a l -> In b l -> ord b a = (- ord a b)%Z) /\
    (forall a b c, In a l -> In b l -> In c l ->
        (ord a b <= 0)%Z -> (ord b c <= 0)%Z -> (ord a c <= 0)%Z).

(** The shape the typed predicate operators declare: a function of one
    parameter, of any type, with the single result type [bool]. *)
Definition predicateShape (fn : argument) : Prop :=
  match fn with
  | Plain _ => False
  | Func f => List.length (TypesIn f) = 1 /\ TypesOut f = [TBool]
  end.

(** A run that panicked before the first call of the cursor. *)
Definition panicsBeforeReading {A : Type} (run : outcome A * nat) : Prop :=
  exists err, run = (Panic err, 0).

(** A slice value is well formed in a store when its array is there, the
    array has the slice's capacity, and the length is within it. *)
Definition wfSlice (h : reflect.heap) (s : reflect.SliceValue) : Prop :=
  reflect.array s < List.length h /\
  List.length (reflect.load h (reflect.array s)) = reflect.Cap s /\
  reflect.Len s <= reflect.Cap s.

(** [grown N c caps]: starting from capacity [c], the capacities [caps]
    were allocated one after the other while writing [N] elements; each
    allocation happened only once the capacity before it was too small
    for the [N] elements, and at least doubled it. *)
Fixpoint grown (N c : nat) (caps : list nat) : Prop :=
  match caps with
  | [] => True
  | c' :: caps' => c < N /\ 2 * c <= c' /\ 1 <= c' /\ grown N c' caps'
  end.

(** The body of the loop of [ToSlice], on its locals. *)
Definition ToSlice_body (item : value)
    (st : reflect.heap * reflect.SliceValue * nat)
    : flow (reflect.heap * reflect.SliceValue * nat)
           (reflect.heap * reflect.SliceValue) :=
  let '(h, slice, index) := st in
  try (if reflect.Len slice <=? index then grow h slice 1
       else Ok (h, slice)) (fun '(h, slice) =>
  try (reflect.SetIndex h slice index item) (fun h =>
  Continue (h, slice, index + 1))).

(** What holds of the locals of [ToSlice] once the elements [done] have
    been written, on the way to [N] elements from the store [h0] and the
    slice [s0]: the first cells of the current array are [done], and the
    arrays allocated so far, in order, have capacities [caps]. *)
Definition ToSlice_inv (N : nat) (h0 : reflect.heap) (s0 : reflect.SliceValue)
    (done : list value) (st : reflect.heap * reflect.SliceValue * nat) : Prop :=
  let '(h, s, index) := st in
  index = List.length done /\
  wfSlice h s /\
  index <= reflect.Len s /\
  reflect.Elem s = reflect.Elem s0 /\
  firstn index (reflect.load h (reflect.array s)) = done /\
  exists caps,
    map (@List.length value) h = map (@List.length value) h0 ++ caps /\
    grown N (reflect.Cap s0) caps /\
    reflect.Cap s = last caps (reflect.Cap s0) /\
    (caps = [] -> reflect.array s = reflect.array s0).

(** The number of leading elements of a sequence that satisfy [p]. *)
Fixpoint prefixLength (p : value -> bool) (q : list value) : nat :=
  match q with
  | [] => 0
  | x :: q' => if p x then S (prefixLength p q') else 0
  end.

(** [m[key]]: the element stored under a key equal to [key], if any. *)
Definition MapIndex (m : MapValue) (key : value) : option value :=
  match entries m with
  | None => None
  | Some es => option_map snd (find (fun e => go_eq (fst e) key) es)
  end.

(** The number of leading positions at which two sequences have equal
    elements. *)
Fixpoint commonPrefix (q q2 : list value) : nat :=
  match q, q2 with
  | item :: q', item2 :: q2' =>
      if go_eq item item2 then S (commonPrefix q' q2') else 0
  | _, _ => 0
  end.


(** What the loop of [ToSlice] leaves alone, from the store [h0] and the
    slice [s0]: the current array is the caller's or one allocated since;
    every other array of [h0] is as it was, and so are the cells of the
    caller's array from [index] on. *)
Definition ToSlice_untouched (h0 : reflect.heap) (s0 : reflect.SliceValue)
    (st : reflect.heap * reflect.SliceValue * nat) : Prop :=
  let '(h, s, index) := st in
  List.length h0 <= List.length h /\
  (reflect.array s = reflect.array s0 \/ List.length h0 <= reflect.array s) /\
  (forall a, a < List.length h0 -> a <> reflect.array s0 ->
             reflect.load h a = reflect.load h0 a) /\
  skipn index (reflect.load h (reflect.array s0))
  = skipn index (reflect.load h0 (reflect.array s0)).

(** The shape [ToMapByT] declares for its selectors: a function of one
    parameter and one result, of any types. *)
Definition selectorShape (fn : argument) : Prop :=
  match fn with
  | Plain _ => False
  | Func f => List.length (TypesIn f) = 1 /\ List.length (TypesOut f) = 1
  end.

(** What assigning [elem] leaves under the key: nothing when [elem] is
    nil (the assignment deletes), [elem] otherwise. *)
Definition stored (elem : value) : option value :=
  match elem with
  | VNil => None
  | _ => Some elem
  end.

(** * Properties *)

(** ** The loop *)

(** [for_next] is the Go loop: one call of the cursor, then either the end
    of the loop or one pass of the body. *)
Lemma for_next_call (S R : Type) (body : value -> S -> flow S R)
    (it : Iterator) (s : S) :
  for_next it s body =
  let '(item, ok, it') := call it in
  if ok then
    match body item s with
    | Continue s' => for_next it' s' body
    | Return r => (Return r, it')
    | Raise msg => (Raise msg, it')
    end
  else (Continue s, it').
Proof.
  unfold for_next, call. destruct it as [items n]; simpl.
  destruct items as [|item rest]; reflexivity.
Qed.

(** An exhausted cursor stays exhausted. *)
Lemma call_exhausted (it : Iterator) :
  pending it = [] ->
  let '(item, ok, it') := call it in
  item = VNil /\ ok = false /\ pending it' = [].
Proof.
  intros H. unfold call. rewrite H. auto.
Qed.

(** A loop only looks at its body on the elements it is given. *)
Lemma range_items_ext (S R : Type) (body body' : value -> S -> flow S R)
    (items : list value) :
  (forall item s, In item items -> body item s = body' item s) ->
  forall n s, range_items body items n s = range_items body' items n s.
Proof.
  induction items as [|item rest IH]; intros Hext n s; simpl.
  - reflexivity.
  - rewrite <- (Hext item s) by (left; reflexivity).
    destruct (body item s); try reflexivity.
    apply IH. intros; apply Hext; right; assumption.
Qed.

(** ** All and AnyWith *)

Lemma All_AnyWith_loop (p : predicate) (items : list value) (n : nat) :
  returning
    (range_items (fun item (_ : unit) =>
       try (p item) (fun holds =>
         if negb holds then Return false else Continue tt)) items n tt)
    (fun _ => true) =
  (let '(r, k) :=
     returning
       (range_items (fun item (_ : unit) =>
          try (fmap negb (p item)) (fun holds =>
            if holds then Return true else Continue tt)) items n tt)
       (fun _ => false)
   in (fmap negb r, k)).
Proof.
  revert n. induction items as [|item rest IH]; intros n; simpl.
  - reflexivity.
  - destruct (p item) as [[|]|msg]; simpl; try reflexivity. apply IH.
Qed.

(** C10. For every finite sequence and every predicate [p], [All(p)] is
    the negation of [AnyWith] on the pointwise negated predicate: the two
    give negated answers (or the same panic, when [p] panics) after the
    same number of cursor calls. *)
Theorem All_is_not_AnyWith_not (q : Query) (p : predicate) :
  All q p =
  (let '(r, calls) := AnyWith q (fun item => fmap negb (p item)) in
   (fmap negb r, calls)).
Proof.
  unfold All, AnyWith, for_next, Iterate; simpl.
  apply All_AnyWith_loop.
Qed.

(** ** First, FirstWith and SingleWith *)

(** A stretch of elements on which the body leaves the locals alone is
    read through, one cursor call each. *)
Lemma range_items_skip (S R : Type) (body : value -> S -> flow S R)
    (l1 l2 : list value) (n : nat) (s : S) :
  (forall item, In item l1 -> body item s = Continue s) ->
  range_items body (l1 ++ l2) n s = range_items body l2 (n + List.length l1) s.
Proof.
  revert n. induction l1 as [|item rest IH]; intros n Hc; simpl.
  - rewrite Nat.add_0_r. reflexivity.
  - rewrite Hc by (left; reflexivity).
    rewrite IH by (intros; apply Hc; right; assumption).
    f_equal. lia.
Qed.

Lemma range_items_skip_all (S R : Type) (body : value -> S -> flow S R)
    (l : list value) (n : nat) (s : S) :
  (forall item, In item l -> body item s = Continue s) ->
  range_items body l n s =
  (Continue s, mkIterator [] (Datatypes.S (n + List.length l))).
Proof.
  intros Hc. rewrite <- (app_nil_r l) at 1.
  rewrite range_items_skip by assumption. reflexivity.
Qed.

(** C8. [First] answers nil on the empty sequence and otherwise the first
    element, after a single cursor call.  [FirstWith] answers nil when no
    element satisfies the predicate (the empty sequence included), having
    read the sequence to its end; otherwise it answers the first element
    that satisfies the predicate and has read no further than that
    element. *)
Theorem First_FirstWith_spec :
  First [] = (VNil, 1) /\
  (forall x rest, First (x :: rest) = (x, 1)) /\
  (forall q p,
      (forall y, In y q -> p y = Ok false) ->
      FirstWith q p = (Ok VNil, S (List.length q))) /\
  (forall before x after p,
      (forall y, In y before -> p y = Ok false) ->
      p x = Ok true ->
      FirstWith (before ++ x :: after) p = (Ok x, S (List.length before))).
Proof.
  repeat split.
  - intros q p Hnone.
    unfold FirstWith, for_next, Iterate; simpl.
    rewrite range_items_skip_all; [reflexivity|].
    intros item Hin. rewrite (Hnone item Hin). reflexivity.
  - intros before x after p Hnone Hx.
    unfold FirstWith, for_next, Iterate; simpl.
    rewrite range_items_skip.
    + simpl. rewrite Hx. reflexivity.
    + intros item Hin. rewrite (Hnone item Hin). reflexivity.
Qed.

Lemma First_FirstWith_spec_witness :
  FirstWith [VSigned Int 1; VSigned Int 5; VSigned Int 2]
    (fun v => match v with
              | VSigned _ z => Ok (3 <? z)%Z
              | _ => Ok false
              end)
  = (Ok (VSigned Int 5), 2).
Proof.
  apply (proj2 (proj2 (proj2 First_FirstWith_spec)) [VSigned Int 1]).
  - intros y [<-|[]]. reflexivity.
  - reflexivity.
Defined.

(** C6, as the specification words it, would have [SingleWith] read the
    whole sequence whatever it finds.  On [1, 1, 2] with a predicate that
    always holds, it answers nil after two cursor calls, not four. *)
Lemma SingleWith_stops_at_second_match :
  let q := [VSigned Int 1; VSigned Int 1; VSigned Int 2] in
  SingleWith q (pure (fun _ => true)) = (Ok VNil, 2)
  /\ 2 < S (List.length q).
Proof. split; [reflexivity | simpl; lia]. Qed.

(** C6 (amended). [SingleWith] answers the matching element when exactly
    one element satisfies the predicate and nil when none does, and in
    both cases it has read the whole sequence; when a second element
    satisfies the predicate it answers nil at that element, without
    reading the rest. *)
Theorem SingleWith_spec :
  (forall q p,
      (forall y, In y q -> p y = Ok false) ->
      SingleWith q p = (Ok VNil, S (List.length q))) /\
  (forall before x after p,
      (forall y, In y before -> p y = Ok false) ->
      p x = Ok true ->
      (forall y, In y after -> p y = Ok false) ->
      SingleWith (before ++ x :: after) p =
      (Ok x, S (List.length (before ++ x :: after)))) /\
  (forall before x between x' rest p,
      (forall y, In y before -> p y = Ok false) ->
      p x = Ok true ->
      (forall y, In y between -> p y = Ok false) ->
      p x' = Ok true ->
      SingleWith (before ++ x :: between ++ x' :: rest) p =
      (Ok VNil, S (List.length (before ++ x :: between)))).
Proof.
  repeat split.
  - intros q p Hnone.
    unfold SingleWith, for_next, Iterate; simpl.
    rewrite range_items_skip_all; [reflexivity|].
    intros item Hin. rewrite (Hnone item Hin). reflexivity.
  - intros before x after p Hb Hx Ha.
    unfold SingleWith, for_next, Iterate; simpl.
    rewrite range_items_skip
      by (intros item Hin; rewrite (Hb item Hin); reflexivity).
    simpl. rewrite Hx. simpl.
    rewrite range_items_skip_all
      by (intros item Hin; rewrite (Ha item Hin); reflexivity).
    simpl. rewrite length_app. simpl. do 2 f_equal. lia.
  - intros before x between x' rest p Hb Hx Hm Hx'.
    unfold SingleWith, for_next, Iterate; simpl.
    rewrite range_items_skip
      by (intros item Hin; rewrite (Hb item Hin); reflexivity).
    simpl. rewrite Hx. simpl.
    rewrite range_items_skip
      by (intros item Hin; rewrite (Hm item Hin); reflexivity).
    simpl. rewrite Hx'. simpl.
    rewrite length_app. simpl. do 2 f_equal. lia.
Qed.

Lemma SingleWith_spec_witness :
  SingleWith [VSigned Int 1; VSigned Int 5; VSigned Int 2]
    (fun v => match v with
              | VSigned _ z => Ok (3 <? z)%Z
              | _ => Ok false
              end)
  = (Ok (VSigned Int 5), 4).
Proof.
  apply (proj1 (proj2 SingleWith_spec) [VSigned Int 1] (VSigned Int 5)
           [VSigned Int 2]).
  - intros y [<-|[]]. reflexivity.
  - reflexivity.
  - intros y [<-|[]]. reflexivity.
Defined.

(** ** SequenceEqual *)

Lemma lockstep_Forall2 (q q2 : list value) :
  lockstep q q2 = true <-> Forall2 (fun a b => go_eq a b = true) q q2.
Proof.
  revert q2. induction q as [|x q IH]; intros [|y q2]; simpl; split; intros H;
    try discriminate; try constructor; try solve [inversion H].
  - apply andb_true_iff in H. tauto.
  - apply IH. apply andb_true_iff in H. tauto.
  - inversion H; subst. apply andb_true_iff. split; [assumption|].
    apply IH. assumption.
Qed.

Lemma SequenceEqual_loop (q : list value) :
  forall (q2 : list value) (n m : nat),
    fst (fst
      match
        range_items (fun item next2 =>
          let '(item2, ok2, next2) := call next2 in
          if negb ok2 || negb (go_eq item item2)
          then Return (false, next2)
          else Continue next2) q n (mkIterator q2 m)
      with
      | (Return (r, next2), next) => (r, calls next, calls next2)
      | (Continue next2, next) =>
          let '(_, ok2, next2) := call next2 in
          (negb ok2, calls next, calls next2)
      | (Raise _, next) => (false, calls next, 0)
      end) = lockstep q q2.
Proof.
  induction q as [|x q IH]; intros [|y q2] n m; simpl; try reflexivity.
  destruct (go_eq x y); simpl; [apply IH | reflexivity].
Qed.

Lemma SequenceEqual_lockstep (q q2 : Query) :
  fst (fst (SequenceEqual q q2)) = lockstep q q2.
Proof.
  unfold SequenceEqual, for_next, Iterate; simpl.
  apply SequenceEqual_loop.
Qed.

(** C4. For every pair of finite sequences, [SequenceEqual] answers true
    exactly when the two sequences have the same length and their
    elements are pairwise equal under Go's [==]; in particular a strict
    prefix against a longer sequence gives false and two empty sequences
    give true. *)
Theorem SequenceEqual_spec (q q2 : Query) :
  fst (fst (SequenceEqual q q2)) = true
  <-> List.length q = List.length q2
      /\ Forall2 (fun a b => go_eq a b = true) q q2.
Proof.
  rewrite SequenceEqual_lockstep, lockstep_Forall2.
  split; [|tauto].
  intros H. split; [eapply Forall2_length; eassumption | assumption].
Qed.

Example SequenceEqual_same :
  let q := [VSigned Int 1; VSigned Int 2; VSigned Int 3] in
  SequenceEqual q q = (true, 4, 4).
Proof. reflexivity. Qed.

Example SequenceEqual_prefix :
  SequenceEqual [VSigned Int 1; VSigned Int 2]
                [VSigned Int 1; VSigned Int 2; VSigned Int 3] = (false, 3, 3).
Proof. reflexivity. Qed.

Example SequenceEqual_empty : SequenceEqual [] [] = (true, 1, 1).
Proof. reflexivity. Qed.

(** Equality is Go's: a NaN differs from itself, also across sequences. *)
Example SequenceEqual_NaN :
  SequenceEqual [VFloat Float64 PrimFloat.nan] [VFloat Float64 PrimFloat.nan]
  = (false, 1, 1).
Proof. reflexivity. Qed.

(** A strict prefix never equals the longer sequence, from either side. *)
Corollary SequenceEqual_strict_prefix (q rest : Query) (x : value) :
  fst (fst (SequenceEqual q (q ++ x :: rest))) = false /\
  fst (fst (SequenceEqual (q ++ x :: rest) q)) = false.
Proof.
  rewrite !SequenceEqual_lockstep.
  split.
  - destruct (lockstep q (q ++ x :: rest)) eqn:E; [|reflexivity].
    apply lockstep_Forall2, Forall2_length in E.
    rewrite length_app in E; simpl in E; lia.
  - destruct (lockstep (q ++ x :: rest) q) eqn:E; [|reflexivity].
    apply lockstep_Forall2, Forall2_length in E.
    rewrite length_app in E; simpl in E; lia.
Qed.

(** ** ToChannel *)

Lemma closed_app (ch ch' : channel) :
  closed (ch ++ ch') = closed ch || closed ch'.
Proof. apply existsb_app. Qed.

Lemma closed_sends (l : list value) : closed (map Send l) = false.
Proof. induction l; simpl; auto. Qed.

Lemma ToChannel_loop (items : list value) :
  forall (ch : channel) (n : nat),
    closed ch = false ->
    range_items (fun item (result : channel) =>
      try (send result item) (fun result => Continue (R := channel) result))
      items n ch =
    (Continue (ch ++ map Send items),
     mkIterator [] (S (n + List.length items))).
Proof.
  induction items as [|item rest IH]; intros ch n Hopen; simpl.
  - rewrite app_nil_r, Nat.add_0_r. reflexivity.
  - unfold send. rewrite Hopen. simpl.
    rewrite IH.
    + rewrite <- app_assoc. simpl. do 3 f_equal. lia.
    + rewrite closed_app, Hopen. reflexivity.
Qed.

(** C9. On a channel that is still open, [ToChannel] performs, for a
    sequence of N elements, N sends with the elements in sequence order
    and then one close, and nothing else: the added operations hold
    exactly one close, in last position.  For the empty sequence the close
    is the only operation. *)
Theorem ToChannel_spec (q : Query) (ch : channel) :
  closed ch = false ->
  ToChannel q ch = (Ok (ch ++ map Send q ++ [Close]), S (List.length q))
  /\ List.length (filter isClose (map Send q ++ [Close])) = 1
  /\ (q = [] -> ToChannel q ch = (Ok (ch ++ [Close]), 1)).
Proof.
  intros Hopen.
  assert (Hrun : ToChannel q ch
                 = (Ok (ch ++ map Send q ++ [Close]), S (List.length q))).
  { unfold ToChannel, for_next, Iterate; simpl.
    rewrite ToChannel_loop by assumption. simpl.
    unfold close. rewrite closed_app, Hopen, closed_sends. simpl.
    rewrite <- app_assoc. reflexivity. }
  split; [exact Hrun|]. split.
  - rewrite filter_app. simpl.
    assert (Hnone : filter isClose (map Send q) = []).
    { clear. induction q; simpl; auto. }
    rewrite Hnone. reflexivity.
  - intros ->. exact Hrun.
Qed.

Lemma ToChannel_spec_witness :
  ToChannel [VSigned Int 1; VSigned Int 2] []
  = (Ok [Send (VSigned Int 1); Send (VSigned Int 2); Close], 3).
Proof.
  exact (proj1 (ToChannel_spec [VSigned Int 1; VSigned Int 2] [] eq_refl)).
Defined.

(** ** SumInts *)

Lemma wrap64_id (z : Z) : int64_range z -> wrap64 z = z.
Proof.
  unfold int64_range, wrap64. intros H.
  rewrite Z.mod_small by lia. lia.
Qed.

Lemma wrap64_add_l (a b : Z) : wrap64 (wrap64 a + b) = wrap64 (a + b).
Proof.
  unfold wrap64.
  replace ((a + 2 ^ 63) mod 2 ^ 64 - 2 ^ 63 + b + 2 ^ 63)%Z
    with ((a + 2 ^ 63) mod 2 ^ 64 + b)%Z by lia.
  rewrite Zplus_mod_idemp_l. f_equal. f_equal. lia.
Qed.

Lemma wrap64_range (z : Z) : int64_range (wrap64 z).
Proof.
  unfold int64_range, wrap64.
  pose proof (Z.mod_pos_bound (z + 2 ^ 63) (2 ^ 64) ltac:(lia)). lia.
Qed.

Lemma wf_signed_int64 (k : signedKind) (z : Z) :
  wf_value (VSigned k z) -> int64_range z.
Proof.
  unfold int64_range. destruct k; simpl; lia.
Qed.

Lemma wf_unsigned_uint64 (k : unsignedKind) (z : Z) :
  wf_value (VUnsigned k z) -> uint64_range z.
Proof.
  unfold uint64_range. destruct k; simpl; lia.
Qed.

(** Accumulating with [add64] from [r] gives the wrapped exact sum. *)
Lemma add64_loop (conv : value -> outcome Z) (items : list value) :
  (forall v, In v items -> conv v = Ok (intOf v)) ->
  forall (r : Z) (n : nat),
    range_items (fun item r =>
      try (conv item) (fun x => Continue (R := Z) (add64 r x))) items n r =
    (Continue (match items with [] => r | _ => wrap64 (r + sumOf items) end),
     mkIterator [] (S (n + List.length items))).
Proof.
  induction items as [|item rest IH]; intros Hconv r n; simpl.
  - rewrite Nat.add_0_r. reflexivity.
  - rewrite Hconv by (left; reflexivity). simpl.
    rewrite IH by (intros; apply Hconv; right; assumption).
    f_equal.
    + f_equal. unfold add64. destruct rest as [|y rest'].
      * simpl. f_equal. lia.
      * rewrite wrap64_add_l. f_equal. simpl. lia.
    + f_equal. lia.
Qed.

Lemma SumInts_wrapped (q : Query) :
  q <> [] ->
  Forall (fun v => isSigned v /\ wf_value v) q ->
  SumInts q = (Ok (wrap64 (sumOf q)), S (List.length q)).
Proof.
  destruct q as [|x rest]; [congruence|]. intros _ Hq.
  inversion Hq as [|? ? [Hx Hwf] Hrest]; subst.
  destruct x as [| |k z| | |]; simpl in Hx; try contradiction.
  unfold SumInts, Iterate, call; simpl.
  unfold for_next; simpl.
  rewrite add64_loop.
  - simpl. f_equal. f_equal. destruct rest; [|reflexivity].
    simpl. rewrite Z.add_0_r. symmetry. apply wrap64_id.
    eapply wf_signed_int64; eassumption.
  - intros v Hin. rewrite Forall_forall in Hrest.
    destruct (Hrest v Hin) as [Hv _].
    destruct v; simpl in Hv; try contradiction. reflexivity.
Qed.

(** C1. [SumInts] answers 0 on the empty sequence.  On a non-empty
    sequence of signed integers, of one width or of several, it answers
    their sum in [int64] arithmetic: the exact sum wrapped to 64 bits,
    hence the exact sum whenever that fits [int64].  It reads the sequence
    once.  So [1, 2, 3] gives 6, and an [int8] followed by an [int64]
    gives their sum. *)
Theorem SumInts_spec :
  SumInts [] = (Ok 0%Z, 1) /\
  (forall q,
      q <> [] ->
      Forall (fun v => isSigned v /\ wf_value v) q ->
      SumInts q = (Ok (wrap64 (sumOf q)), S (List.length q)) /\
      (int64_range (sumOf q) ->
       SumInts q = (Ok (sumOf q), S (List.length q)))) /\
  SumInts [VSigned Int 1; VSigned Int 2; VSigned Int 3] = (Ok 6%Z, 4) /\
  SumInts [VSigned Int8 1; VSigned Int64 5] = (Ok 6%Z, 3).
Proof.
  split; [reflexivity|]. split; [|split; reflexivity].
  intros q Hne Hq. split.
  - apply SumInts_wrapped; assumption.
  - intros Hfit. rewrite SumInts_wrapped by assumption.
    rewrite wrap64_id by assumption. reflexivity.
Qed.

(** No overflow check is made: the sum wraps around. *)
Example SumInts_wraps :
  SumInts [VSigned Int64 (2 ^ 63 - 1); VSigned Int64 1]
  = (Ok (- 2 ^ 63)%Z, 3).
Proof. reflexivity. Qed.

Lemma SumInts_spec_witness :
  SumInts [VSigned Int8 (-128); VSigned Int64 (2 ^ 40); VSigned Int32 7]
  = (Ok (2 ^ 40 - 121)%Z, 4).
Proof.
  refine (proj2 (proj1 (proj2 SumInts_spec)
            [VSigned Int8 (-128); VSigned Int64 (2 ^ 40); VSigned Int32 7]
            _ _) _).
  - discriminate.
  - repeat constructor; simpl; lia.
  - unfold int64_range; simpl; lia.
Defined.

(** ** Average *)

Lemma wrapu64_id (z : Z) : uint64_range z -> wrapu64 z = z.
Proof. unfold uint64_range, wrapu64. intros H. apply Z.mod_small. lia. Qed.

Lemma wrapu64_add_l (a b : Z) : wrapu64 (wrapu64 a + b) = wrapu64 (a + b).
Proof. unfold wrapu64. apply Zplus_mod_idemp_l. Qed.

Section AverageLoops.

Variable conv : value -> outcome Z.
Variable items : list value.
Hypothesis conv_items : forall v, In v items -> conv v = Ok (intOf v).

Lemma average_loop_signed (sum n : Z) (k : nat) :
  range_items (fun item '(sum, n) =>
    try (conv item) (fun x =>
      Continue (R := float) (add64 sum x, n + 1)%Z)) items k (sum, n) =
  (Continue (match items with
             | [] => sum
             | _ => wrap64 (sum + sumOf items)
             end, (n + Z.of_nat (List.length items))%Z),
   mkIterator [] (S (k + List.length items))).
Proof.
  revert conv_items sum n k.
  induction items as [|item rest IH]; intros Hconv sum n k.
  - simpl. rewrite Nat.add_0_r, Z.add_0_r. reflexivity.
  - cbn [range_items]. rewrite Hconv by (left; reflexivity).
    cbn [try]. rewrite IH by (intros; apply Hconv; right; assumption).
    f_equal; [f_equal; f_equal|f_equal; simpl; lia].
    + unfold add64. destruct rest as [|y rest'].
      * simpl. f_equal. lia.
      * rewrite wrap64_add_l. f_equal. simpl. lia.
    + simpl List.length. lia.
Qed.

Lemma average_loop_unsigned (sum n : Z) (k : nat) :
  range_items (fun item '(sum, n) =>
    try (conv item) (fun x =>
      Continue (R := float) (addu64 sum x, n + 1)%Z)) items k (sum, n) =
  (Continue (match items with
             | [] => sum
             | _ => wrapu64 (sum + sumOf items)
             end, (n + Z.of_nat (List.length items))%Z),
   mkIterator [] (S (k + List.length items))).
Proof.
  revert conv_items sum n k.
  induction items as [|item rest IH]; intros Hconv sum n k.
  - simpl. rewrite Nat.add_0_r, Z.add_0_r. reflexivity.
  - cbn [range_items]. rewrite Hconv by (left; reflexivity).
    cbn [try]. rewrite IH by (intros; apply Hconv; right; assumption).
    f_equal; [f_equal; f_equal|f_equal; simpl; lia].
    + unfold addu64. destruct rest as [|y rest'].
      * simpl. f_equal. lia.
      * rewrite wrapu64_add_l. f_equal. simpl. lia.
    + simpl List.length. lia.
Qed.

End AverageLoops.

Lemma average_loop_float (conv : value -> outcome float) (items : list value) :
  (forall v, In v items -> conv v = Ok (floatOf v)) ->
  forall (r : float) (n : Z) (k : nat),
    range_items (fun item '(r, n) =>
      try (conv item) (fun x =>
        Continue (R := float) ((r + x)%float, (n + 1)%Z))) items k (r, n) =
    (Continue (fold_left PrimFloat.add (map floatOf items) r,
               (n + Z.of_nat (List.length items))%Z),
     mkIterator [] (S (k + List.length items))).
Proof.
  induction items as [|item rest IH]; intros Hconv r n k.
  - simpl. rewrite Nat.add_0_r, Z.add_0_r. reflexivity.
  - cbn [range_items]. rewrite Hconv by (left; reflexivity).
    cbn [try]. rewrite IH by (intros; apply Hconv; right; assumption).
    f_equal; [f_equal; f_equal|f_equal; simpl; lia].
    simpl List.length. lia.
Qed.

Lemma NaN_is_not_a_number :
  PrimFloat.is_nan math.NaN = true /\ math.NaN <> 0%float.
Proof.
  split; [reflexivity|].
  intros H. apply (f_equal PrimFloat.is_nan) in H.
  vm_compute in H. discriminate.
Qed.

Lemma Average_numeric (q : Query) :
  q <> [] ->
  numeric q ->
  Average q =
  (Ok (sumAsFloat q / float64_of_Z (Z.of_nat (List.length q)))%float,
   S (List.length q)).
Proof.
  destruct q as [|x rest]; [congruence|]. intros _ [Hwf Hfam].
  assert (Hn : forall m, (1 + Z.of_nat m)%Z = Z.of_nat (S m)) by (intros; lia).
  destruct Hfam as [Hs|[Hu|Hf]].
  - inversion Hs as [|? ? Hx Hrest]; subst.
    inversion Hwf as [|? ? Hwx _]; subst.
    destruct x as [| |k z| | |]; simpl in Hx; try contradiction.
    unfold Average, Iterate, call, for_next; cbn -[float64_of_Z wrap64 add64 Z.add Z.of_nat sumOf].
    rewrite average_loop_signed.
    + cbn -[float64_of_Z wrap64 add64 Z.add Z.of_nat sumOf List.length]. rewrite Hn.
      destruct rest as [|y rest']; [|reflexivity].
      simpl sumOf. rewrite Z.add_0_r, wrap64_id; [reflexivity|].
      eapply wf_signed_int64; eassumption.
    + intros v Hin. rewrite Forall_forall in Hrest.
      specialize (Hrest v Hin).
      destruct v; simpl in Hrest; try contradiction. reflexivity.
  - inversion Hu as [|? ? Hx Hrest]; subst.
    inversion Hwf as [|? ? Hwx _]; subst.
    destruct x as [| | |k z| |]; simpl in Hx; try contradiction.
    unfold Average, Iterate, call, for_next; cbn -[float64_of_Z wrapu64 addu64 Z.add Z.of_nat sumOf].
    rewrite average_loop_unsigned.
    + cbn -[float64_of_Z wrapu64 addu64 Z.add Z.of_nat sumOf List.length]. rewrite Hn.
      destruct rest as [|y rest']; [|reflexivity].
      simpl sumOf. rewrite Z.add_0_r, wrapu64_id; [reflexivity|].
      eapply wf_unsigned_uint64; eassumption.
    + intros v Hin. rewrite Forall_forall in Hrest.
      specialize (Hrest v Hin).
      destruct v; simpl in Hrest; try contradiction. reflexivity.
  - inversion Hf as [|? ? Hx Hrest]; subst.
    destruct x as [| | | |k f|]; simpl in Hx; try contradiction.
    unfold Average, Iterate, call, for_next; cbn -[float64_of_Z Z.add Z.of_nat].
    rewrite average_loop_float.
    + cbn -[float64_of_Z Z.add Z.of_nat List.length]. rewrite Hn. reflexivity.
    + intros v Hin. rewrite Forall_forall in Hrest.
      specialize (Hrest v Hin).
      destruct v; simpl in Hrest; try contradiction. reflexivity.
Qed.

(** C2. [Average] answers NaN on the empty sequence, which is neither
    zero nor a panic.  On a non-empty numeric sequence (well-formed
    elements of one family) it answers the sum of the elements, formed in
    the arithmetic of their family and taken to [float64], divided by
    their number.  [Average] of [2, 4] is [3.0]. *)
Theorem Average_spec :
  Average [] = (Ok math.NaN, 1) /\
  PrimFloat.is_nan math.NaN = true /\
  math.NaN <> 0%float /\
  (forall q,
      q <> [] ->
      numeric q ->
      Average q =
      (Ok (sumAsFloat q / float64_of_Z (Z.of_nat (List.length q)))%float,
       S (List.length q))) /\
  Average [VSigned Int 2; VSigned Int 4] = (Ok 3%float, 3) /\
  Average [VFloat Float64 2; VFloat Float64 4] = (Ok 3%float, 3).
Proof.
  split; [reflexivity|].
  split; [apply NaN_is_not_a_number|].
  split; [apply NaN_is_not_a_number|].
  split; [exact Average_numeric|].
  split; vm_compute; reflexivity.
Qed.

Lemma Average_spec_witness :
  Average [VUnsigned Uint8 200; VUnsigned Uint8 100; VUnsigned Uint8 30]
  = (Ok 110%float, 4).
Proof.
  refine (eq_trans
            (proj1 (proj2 (proj2 (proj2 Average_spec)))
               [VUnsigned Uint8 200; VUnsigned Uint8 100; VUnsigned Uint8 30]
               _ _) _).
  - discriminate.
  - split.
    + repeat constructor; simpl; lia.
    + right; left. repeat constructor.
  - vm_compute. reflexivity.
Defined.

(** ** Max and Min *)

Section Scan.

(** One scan keeping a running best [r]: [item] replaces [r] when
    [test (compare item r)] holds. *)
Variable cmp : value -> value -> outcome Z.
Variable ord : value -> value -> Z.
Variable test : Z -> bool.
Variable dom : list value.

Let better (a b : value) : bool := test (ord a b).

Hypothesis cmp_ord : forall a b, In a dom -> In b dom -> cmp a b = Ok (ord a b).
Hypothesis better_asym :
  forall a b, In a dom -> In b dom -> better a b = true -> better b a = false.
Hypothesis not_better_trans :
  forall a b c, In a dom -> In b dom -> In c dom ->
    better a b = false -> better b c = false -> better a c = false.

Lemma scan_first_best (rest : list value) :
  forall (before : list value) (r : value) (mid : list value) (n : nat),
    incl (before ++ r :: mid ++ rest) dom ->
    (forall y, In y before -> better r y = true) ->
    (forall y, In y mid -> better y r = false) ->
    exists before' r' after',
      before ++ r :: mid ++ rest = before' ++ r' :: after' /\
      range_items (fun item r =>
        try (cmp item r) (fun c =>
          if test c then Continue (R := value) item else Continue r))
        rest n r =
      (Continue r', mkIterator [] (S (n + List.length rest))) /\
      (forall y, In y before' -> better r' y = true) /\
      (forall y, In y after' -> better y r' = false).
Proof.
  induction rest as [|item rest' IH]; intros before r mid n Hdom Hb Hm.
  - exists before, r, mid. rewrite app_nil_r. simpl.
    rewrite Nat.add_0_r. auto.
  - assert (Hr : In r dom) by (apply Hdom; rewrite in_app_iff; simpl; auto).
    assert (Hitem : In item dom).
    { apply Hdom. rewrite in_app_iff. right. right.
      rewrite in_app_iff. simpl; auto. }
    cbn [range_items]. rewrite cmp_ord by assumption. cbn [try].
    destruct (test (ord item r)) eqn:Hbetter.
    + (* [item] becomes the running best *)
      destruct (IH (before ++ r :: mid) item [] (S n)) as
        (before' & r' & after' & Heq & Hrun & Hb' & Ha').
      * intros y Hy. apply Hdom. rewrite <- app_assoc in Hy. exact Hy.
      * intros y Hy.
        assert (Hyd : In y dom).
        { apply Hdom. rewrite in_app_iff in Hy. rewrite in_app_iff.
          simpl in *. rewrite in_app_iff. tauto. }
        destruct (better item y) eqn:E; [reflexivity|].
        assert (Hyr : better y r = false).
        { rewrite in_app_iff in Hy. destruct Hy as [Hy|[<-|Hy]].
          - apply better_asym; auto.
          - destruct (better r r) eqn:Err; [|reflexivity].
            rewrite (better_asym Hr Hr Err) in Err. discriminate.
          - apply Hm; assumption. }
        pose proof (not_better_trans Hitem Hyd Hr E Hyr) as Hc.
        unfold better in Hc. congruence.
      * intros y [].
      * exists before', r', after'. split; [|split; [|split]]; auto.
        -- rewrite <- Heq. rewrite <- app_assoc. reflexivity.
        -- rewrite Hrun. do 2 f_equal. simpl. lia.
    + (* the running best stays *)
      destruct (IH before r (mid ++ [item]) (S n)) as
        (before' & r' & after' & Heq & Hrun & Hb' & Ha').
      * intros y Hy. apply Hdom. rewrite <- app_assoc in Hy. exact Hy.
      * assumption.
      * intros y Hy. rewrite in_app_iff in Hy. destruct Hy as [Hy|[<-|[]]].
        -- apply Hm; assumption.
        -- exact Hbetter.
      * exists before', r', after'. split; [|split; [|split]]; auto.
        -- rewrite <- Heq. rewrite <- app_assoc. reflexivity.
        -- rewrite Hrun. do 2 f_equal. simpl. lia.
Qed.

End Scan.

Lemma Max_first_maximal (x : value) (rest : list value) :
  total_on (getComparer x) (x :: rest) ->
  exists before r after,
    x :: rest = before ++ r :: after /\
    Max (x :: rest) = (Ok r, S (List.length (x :: rest))) /\
    (forall y, In y before ->
       exists c, getComparer x y r = Ok c /\ (c < 0)%Z) /\
    (forall y, In y after ->
       exists c, getComparer x y r = Ok c /\ (c <= 0)%Z).
Proof.
  intros (ord & Hcmp & Hanti & Htrans).
  destruct (@scan_first_best (getComparer x) ord (fun c => (c >? 0)%Z)
              (x :: rest) Hcmp) with (rest := rest) (before := @nil value)
              (r := x) (mid := @nil value) (n := 1)
    as (before & r & after & Heq & Hrun & Hb & Ha).
  - intros a b Ha Hb Hab.
    rewrite (Hanti a b Ha Hb).
    destruct (Z.gtb_spec (ord a b) 0); [|discriminate].
    destruct (Z.gtb_spec (- ord a b) 0); [lia|reflexivity].
  - intros a b c Ha Hb Hc Hab Hbc.
    destruct (Z.gtb_spec (ord a b) 0); [discriminate|].
    destruct (Z.gtb_spec (ord b c) 0); [discriminate|].
    pose proof (Htrans a b c Ha Hb Hc ltac:(lia) ltac:(lia)).
    destruct (Z.gtb_spec (ord a c) 0); [lia|reflexivity].
  - apply incl_refl.
  - intros y [].
  - intros y [].
  - simpl in Heq.
    assert (Hr : In r (x :: rest)).
    { rewrite Heq, in_app_iff. simpl; auto. }
    exists before, r, after. split; [exact Heq|]. split; [|split].
    + unfold Max, Iterate, call, for_next; simpl.
      unfold returning, finish. rewrite Hrun. reflexivity.
    + intros y Hy.
      assert (Hyd : In y (x :: rest)).
      { rewrite Heq, in_app_iff. auto. }
      exists (ord y r). split; [apply Hcmp; assumption|].
      specialize (Hb y Hy). simpl in Hb.
      rewrite (Hanti r y Hr Hyd).
      destruct (Z.gtb_spec (ord r y) 0); [lia|discriminate].
    + intros y Hy.
      assert (Hyd : In y (x :: rest)).
      { rewrite Heq, in_app_iff. simpl; auto. }
      exists (ord y r). split; [apply Hcmp; assumption|].
      specialize (Ha y Hy). simpl in Ha.
      destruct (Z.gtb_spec (ord y r) 0); [discriminate|lia].
Qed.

Lemma Min_first_minimal (x : value) (rest : list value) :
  total_on (getComparer x) (x :: rest) ->
  exists before r after,
    x :: rest = before ++ r :: after /\
    Min (x :: rest) = (Ok r, S (List.length (x :: rest))) /\
    (forall y, In y before ->
       exists c, getComparer x y r = Ok c /\ (0 < c)%Z) /\
    (forall y, In y after ->
       exists c, getComparer x y r = Ok c /\ (0 <= c)%Z).
Proof.
  intros (ord & Hcmp & Hanti & Htrans).
  destruct (@scan_first_best (getComparer x) ord (fun c => (c <? 0)%Z)
              (x :: rest) Hcmp) with (rest := rest) (before := @nil value)
              (r := x) (mid := @nil value) (n := 1)
    as (before & r & after & Heq & Hrun & Hb & Ha).
  - intros a b Ha Hb Hab.
    rewrite (Hanti a b Ha Hb).
    destruct (Z.ltb_spec (ord a b) 0); [|discriminate].
    destruct (Z.ltb_spec (- ord a b) 0); [lia|reflexivity].
  - intros a b c Ha Hb Hc Hab Hbc.
    destruct (Z.ltb_spec (ord a b) 0); [discriminate|].
    destruct (Z.ltb_spec (ord b c) 0); [discriminate|].
    pose proof (Htrans c b a Hc Hb Ha) as Hcba.
    rewrite (Hanti b c Hb Hc), (Hanti a b Ha Hb), (Hanti a c Ha Hc) in Hcba.
    destruct (Z.ltb_spec (ord a c) 0); [lia|reflexivity].
  - apply incl_refl.
  - intros y [].
  - intros y [].
  - simpl in Heq.
    assert (Hr : In r (x :: rest)).
    { rewrite Heq, in_app_iff. simpl; auto. }
    exists before, r, after. split; [exact Heq|]. split; [|split].
    + unfold Min, Iterate, call, for_next; simpl.
      unfold returning, finish. rewrite Hrun. reflexivity.
    + intros y Hy.
      assert (Hyd : In y (x :: rest)).
      { rewrite Heq, in_app_iff. auto. }
      exists (ord y r). split; [apply Hcmp; assumption|].
      specialize (Hb y Hy). simpl in Hb.
      rewrite (Hanti r y Hr Hyd).
      destruct (Z.ltb_spec (ord r y) 0); [lia|discriminate].
    + intros y Hy.
      assert (Hyd : In y (x :: rest)).
      { rewrite Heq, in_app_iff. simpl; auto. }
      exists (ord y r). split; [apply Hcmp; assumption|].
      specialize (Ha y Hy). simpl in Ha.
      destruct (Z.ltb_spec (ord y r) 0); [discriminate|lia].
Qed.

Lemma signedKind_eqb_refl (k : signedKind) : signedKind_eqb k k = true.
Proof. destruct k; reflexivity. Qed.

(** Sequences of one signed integer type are totally ordered by their
    comparer, so the hypothesis of the extrema theorems is met by them. *)
Lemma signed_total_on (k : signedKind) (z0 : Z) (l : list value) :
  (forall v, In v l -> exists z, v = VSigned k z) ->
  total_on (getComparer (VSigned k z0)) l.
Proof.
  intros Hl.
  exists (fun a b => threeWay (intOf b <? intOf a)%Z (intOf a <? intOf b)%Z).
  split; [|split].
  - intros a b Ha Hb.
    destruct (Hl a Ha) as [za ->]. destruct (Hl b Hb) as [zb ->].
    simpl. rewrite signedKind_eqb_refl. reflexivity.
  - intros a b _ _. unfold threeWay.
    destruct (Z.ltb_spec (intOf a) (intOf b));
      destruct (Z.ltb_spec (intOf b) (intOf a)); lia.
  - intros a b c _ _ _. unfold threeWay.
    destruct (Z.ltb_spec (intOf a) (intOf b));
      destruct (Z.ltb_spec (intOf b) (intOf a));
      destruct (Z.ltb_spec (intOf b) (intOf c));
      destruct (Z.ltb_spec (intOf c) (intOf b));
      destruct (Z.ltb_spec (intOf a) (intOf c));
      destruct (Z.ltb_spec (intOf c) (intOf a)); lia.
Qed.

(** C3. [Max] and [Min] answer nil on the empty sequence.  On a
    non-empty sequence that the comparer chosen from its first element
    orders totally, each reads the sequence exactly once and answers an
    element of it that no element beats; every element met before the
    answer is strictly worse, so among tied elements the first one seen
    is kept.  [Max] of [3, 1, 2] is 3 and [Min] is 1. *)
Theorem Max_Min_spec :
  Max [] = (Ok VNil, 1) /\
  Min [] = (Ok VNil, 1) /\
  (forall x rest,
      total_on (getComparer x) (x :: rest) ->
      exists before r after,
        x :: rest = before ++ r :: after /\
        Max (x :: rest) = (Ok r, S (List.length (x :: rest))) /\
        (forall y, In y before ->
           exists c, getComparer x y r = Ok c /\ (c < 0)%Z) /\
        (forall y, In y after ->
           exists c, getComparer x y r = Ok c /\ (c <= 0)%Z)) /\
  (forall x rest,
      total_on (getComparer x) (x :: rest) ->
      exists before r after,
        x :: rest = before ++ r :: after /\
        Min (x :: rest) = (Ok r, S (List.length (x :: rest))) /\
        (forall y, In y before ->
           exists c, getComparer x y r = Ok c /\ (0 < c)%Z) /\
        (forall y, In y after ->
           exists c, getComparer x y r = Ok c /\ (0 <= c)%Z)) /\
  Max [VSigned Int 3; VSigned Int 1; VSigned Int 2] = (Ok (VSigned Int 3), 4) /\
  Min [VSigned Int 3; VSigned Int 1; VSigned Int 2] = (Ok (VSigned Int 1), 4).
Proof.
  split; [reflexivity|]. split; [reflexivity|].
  split; [exact Max_first_maximal|].
  split; [exact Min_first_minimal|].
  split; reflexivity.
Qed.

(** Ties are visible on floats: the two zeros compare equal, and the one
    met first is the answer. *)
Example Max_keeps_first_of_ties :
  Max [VFloat Float64 0; VFloat Float64 (-0)] = (Ok (VFloat Float64 0), 3) /\
  Max [VFloat Float64 (-0); VFloat Float64 0] = (Ok (VFloat Float64 (-0)), 3) /\
  Min [VFloat Float64 0; VFloat Float64 (-0)] = (Ok (VFloat Float64 0), 3).
Proof. repeat split; vm_compute; reflexivity. Qed.

Lemma Max_Min_spec_witness :
  exists before r after,
    [VSigned Int 3; VSigned Int 1; VSigned Int 2] = before ++ r :: after /\
    Max [VSigned Int 3; VSigned Int 1; VSigned Int 2] = (Ok r, 4) /\
    (forall y, In y before ->
       exists c, getComparer (VSigned Int 3) y r = Ok c /\ (c < 0)%Z) /\
    (forall y, In y after ->
       exists c, getComparer (VSigned Int 3) y r = Ok c /\ (c <= 0)%Z).
Proof.
  apply (proj1 (proj2 (proj2 Max_Min_spec))
           (VSigned Int 3) [VSigned Int 1; VSigned Int 2]).
  apply signed_total_on.
  intros v [<-|[<-|[<-|[]]]]; eexists; reflexivity.
Defined.

(** ** Typed variants *)

(** An operator built from one loop whose body consults the predicate
    only on the current element sees the predicate only on the elements
    of the sequence. *)
Ltac predicate_ext Hext :=
  unfold All, AnyWith, CountWith, FirstWith, LastWith, SingleWith,
    for_next, Iterate; simpl;
  f_equal; apply range_items_ext;
  intros item s Hin; rewrite (Hext item Hin); reflexivity.

Section PredicateExt.

Variables (q : Query) (p p' : predicate).
Hypothesis p_p' : forall item, In item q -> p item = p' item.

Lemma All_ext : All q p = All q p'.
Proof. predicate_ext p_p'. Qed.

Lemma AnyWith_ext : AnyWith q p = AnyWith q p'.
Proof. predicate_ext p_p'. Qed.

Lemma CountWith_ext : CountWith q p = CountWith q p'.
Proof. predicate_ext p_p'. Qed.

Lemma FirstWith_ext : FirstWith q p = FirstWith q p'.
Proof. predicate_ext p_p'. Qed.

Lemma LastWith_ext : LastWith q p = LastWith q p'.
Proof. predicate_ext p_p'. Qed.

Lemma SingleWith_ext : SingleWith q p = SingleWith q p'.
Proof. predicate_ext p_p'. Qed.

End PredicateExt.

(** Calling the wrapper of [func(x T) bool { return p(x) }] on an element
    that a [T] parameter accepts, and asserting the result to [bool], is
    [p] on that element. *)
Lemma Call_typedPredicate (T : gotype) (p : predicate) (item : value) :
  assignable item T = true ->
  (v <- Call (mkGenericFunc (typedPredicate T p)) item ;; assertBool v)
  = p item.
Proof.
  intros Hassign. unfold Call; simpl. rewrite Hassign.
  destruct (p item); reflexivity.
Qed.

Lemma gotype_eqb_TBool (t : gotype) : gotype_eqb TBool t = true -> t = TBool.
Proof. destruct t; simpl; congruence. Qed.

(** Anything that does not have the declared shape is refused when the
    wrapper is built. *)
Lemma newGenericFunc_refuses (methodName paramName : string) (fn : argument) :
  ~ predicateShape fn ->
  exists err,
    newGenericFunc methodName paramName fn
      (simpleParamValidator (newElemTypeSlice [genericType])
                            (newElemTypeSlice [exactType TBool]))
    = inr err.
Proof.
  intros Hbad. destruct fn as [v|f]; simpl.
  - eexists; reflexivity.
  - unfold simpleParamValidator, newElemTypeSlice.
    destruct (shapeMatches [genericType] (TypesIn f)
              && shapeMatches [exactType TBool] (TypesOut f)) eqn:E.
    + exfalso. apply Hbad. simpl.
      apply andb_true_iff in E. destruct E as [Ein Eout].
      destruct (TypesIn f) as [|t [|t' ins]]; simpl in Ein; try discriminate.
      destruct (TypesOut f) as [|o [|o' outs]]; simpl in Eout;
        try discriminate;
        try (rewrite andb_false_r in Eout; discriminate).
      rewrite andb_true_r in Eout.
      apply gotype_eqb_TBool in Eout. subst. auto.
    + eexists; reflexivity.
Qed.

(** C7. With the function [func(x T) bool { return p(x) }] and a
    sequence whose elements a [T] parameter accepts, every typed predicate
    operator gives what its untyped counterpart gives with [p], cursor
    calls included.  With an argument that is not a function, or a
    function that does not have one parameter and the single result type
    [bool], every typed operator panics before the cursor is called at
    all. *)
Theorem typed_variants_spec :
  (forall q T p,
      Forall (fun item => assignable item T = true) q ->
      AllT q (Func (typedPredicate T p)) = All q p /\
      AnyWithT q (Func (typedPredicate T p)) = AnyWith q p /\
      CountWithT q (Func (typedPredicate T p)) = CountWith q p /\
      FirstWithT q (Func (typedPredicate T p)) = FirstWith q p /\
      LastWithT q (Func (typedPredicate T p)) = LastWith q p /\
      SingleWithT q (Func (typedPredicate T p)) = SingleWith q p) /\
  (forall q fn,
      ~ predicateShape fn ->
      panicsBeforeReading (AllT q fn) /\
      panicsBeforeReading (AnyWithT q fn) /\
      panicsBeforeReading (CountWithT q fn) /\
      panicsBeforeReading (FirstWithT q fn) /\
      panicsBeforeReading (LastWithT q fn) /\
      panicsBeforeReading (SingleWithT q fn)).
Proof.
  split.
  - intros q T p Hq. rewrite Forall_forall in Hq.
    assert (Hext : forall item, In item q ->
              (v <- Call (mkGenericFunc (typedPredicate T p)) item ;;
               assertBool v) = p item)
      by (intros; apply Call_typedPredicate; auto).
    unfold AllT, AnyWithT, CountWithT, FirstWithT, LastWithT, SingleWithT.
    simpl newGenericFunc. cbv iota beta.
    repeat split;
      [ apply All_ext | apply AnyWith_ext | apply CountWith_ext
      | apply FirstWith_ext | apply LastWith_ext | apply SingleWith_ext ];
      exact Hext.
  - intros q fn Hbad.
    unfold panicsBeforeReading,
      AllT, AnyWithT, CountWithT, FirstWithT, LastWithT, SingleWithT.
    repeat split.
    all: match goal with
         | |- context [newGenericFunc ?m ?n ?f _] =>
             destruct (@newGenericFunc_refuses m n f Hbad) as [err ->]
         end; eexists; reflexivity.
Qed.

(** The declared parameter type is "any": a function whose parameter
    cannot take the elements passes the check, and the call on the first
    element panics. *)
Example AllT_parameter_type_is_checked_by_the_call :
  AllT [VSigned Int 1; VSigned Int 2]
    (Func (typedPredicate TString (pure (fun _ => true))))
  = (Panic "reflect: Call using a value of the wrong type", 1).
Proof. reflexivity. Qed.

Lemma typed_variants_spec_witness :
  AllT [VSigned Int 1; VSigned Int 5]
    (Func (typedPredicate (TSigned Int)
             (fun v => Ok (0 <? intOf v)%Z)))
  = (Ok true, 3)
  /\ panicsBeforeReading
       (AllT [VSigned Int 1; VSigned Int 5]
          (Func (mkFunc [TSigned Int; TSigned Int] [TBool]
                   (fun _ => Ok [VBool true])))).
Proof.
  split.
  - refine (eq_trans
              (proj1 (proj1 typed_variants_spec
                        [VSigned Int 1; VSigned Int 5] (TSigned Int)
                        (fun v => Ok (0 <? intOf v)%Z) _)) _).
    + repeat constructor.
    + reflexivity.
  - refine (proj1 (proj2 typed_variants_spec _ _ _)).
    simpl. intros [Hlen _]. discriminate.
Defined.

(** ** ToSlice *)

Section Update.

Variable A : Type.
Implicit Types (l : list A) (x d : A) (i j : nat).

Lemma update_length i x l :
  List.length (reflect.update i x l) = List.length l.
Proof.
  revert i. induction l as [|y l IH]; intros [|i]; simpl; auto.
Qed.

Lemma nth_update_same i x l d :
  i < List.length l -> nth i (reflect.update i x l) d = x.
Proof.
  revert i. induction l as [|y l IH]; intros [|i]; simpl; intros H;
    try lia; auto. apply IH. lia.
Qed.

Lemma nth_update_other i j x l d :
  i <> j -> nth j (reflect.update i x l) d = nth j l d.
Proof.
  revert i j. induction l as [|y l IH]; intros [|i] [|j]; simpl; intros H;
    try congruence; auto.
Qed.

Lemma firstn_update_below i j x l :
  j <= i -> firstn j (reflect.update i x l) = firstn j l.
Proof.
  revert i j. induction l as [|y l IH]; intros [|i] [|j]; simpl; intros H;
    try lia; auto. f_equal. apply IH. lia.
Qed.

Lemma firstn_update_next i x l :
  i < List.length l ->
  firstn (S i) (reflect.update i x l) = firstn i l ++ [x].
Proof.
  revert i. induction l as [|y l IH]; intros [|i]; simpl; intros H;
    try lia; auto. f_equal. apply IH. lia.
Qed.

Lemma update_last l x y :
  reflect.update (List.length l) x (l ++ [y]) = l ++ [x].
Proof. induction l as [|z l IH]; simpl; congruence. Qed.

End Update.

Lemma map_length_update (h : reflect.heap) (a : nat) (arr : list value) :
  List.length arr = List.length (reflect.load h a) ->
  map (@List.length value) (reflect.update a arr h)
  = map (@List.length value) h.
Proof.
  unfold reflect.load. revert a.
  induction h as [|b h IH]; intros [|a]; simpl; intros H; auto.
  - congruence.
  - f_equal. apply IH. assumption.
Qed.

Lemma load_update_same (h : reflect.heap) (a : nat) (arr : list value) :
  a < List.length h -> reflect.load (reflect.update a arr h) a = arr.
Proof. apply nth_update_same. Qed.

Lemma load_app_old (h : reflect.heap) (arr : list value) (a : nat) :
  a < List.length h -> reflect.load (h ++ [arr]) a = reflect.load h a.
Proof. intros H. unfold reflect.load. apply app_nth1. assumption. Qed.

Lemma load_app_new (h : reflect.heap) (arr : list value) :
  reflect.load (h ++ [arr]) (List.length h) = arr.
Proof.
  unfold reflect.load. rewrite app_nth2 by lia.
  rewrite Nat.sub_diag. reflexivity.
Qed.

(** The doubling loop ends within [fuel] rounds as soon as
    [cap * 2 ^ fuel] reaches [newLen]; the capacity it ends with holds
    [newLen], and is at least twice the old one if that did not. *)
Lemma doubleUntil_enough (fuel : nat) :
  forall cap newLen,
    newLen <= cap * 2 ^ fuel ->
    exists c, doubleUntil fuel cap newLen = Some c /\
              newLen <= c /\ cap <= c /\ (cap < newLen -> 2 * cap <= c).
Proof.
  induction fuel as [|fuel IH]; intros cap newLen Hfuel; simpl in *.
  - destruct (Nat.ltb_spec cap newLen); [lia|].
    exists cap. repeat split; auto; lia.
  - destruct (Nat.ltb_spec cap newLen).
    + destruct (IH (cap * 2) newLen) as (c & Hc & H1 & H2 & H3); [lia|].
      exists c. repeat split; auto; lia.
    + exists cap. repeat split; auto; lia.
Qed.

Lemma doubleUntil_newLen (cap newLen : nat) :
  1 <= cap ->
  exists c, doubleUntil newLen cap newLen = Some c /\
            newLen <= c /\ cap <= c /\ (cap < newLen -> 2 * cap <= c).
Proof.
  intros Hcap. apply doubleUntil_enough.
  pose proof (Nat.pow_gt_lin_r 2 newLen ltac:(lia)). nia.
Qed.

(** What [grow] does to a well-formed slice: within capacity it
    re-slices the same array; otherwise it allocates a copy that is at
    least twice as large.  Either way the first [Len s] cells are kept. *)
Lemma grow_spec (h : reflect.heap) (s : reflect.SliceValue) (extra : nat) :
  wfSlice h s ->
  exists h' s',
    grow h s extra = Ok (h', s') /\
    reflect.Len s' = reflect.Len s + extra /\
    reflect.Elem s' = reflect.Elem s /\
    wfSlice h' s' /\
    firstn (reflect.Len s) (reflect.load h' (reflect.array s'))
    = firstn (reflect.Len s) (reflect.load h (reflect.array s)) /\
    ((reflect.Len s + extra <= reflect.Cap s /\ h' = h /\
      reflect.array s' = reflect.array s /\ reflect.Cap s' = reflect.Cap s)
     \/
     (reflect.Cap s < reflect.Len s + extra /\
      map (@List.length value) h'
      = map (@List.length value) h ++ [reflect.Cap s'] /\
      2 * reflect.Cap s <= reflect.Cap s' /\ 1 <= reflect.Cap s')).
Proof.
  intros (Harr & Hcap & Hlen).
  unfold grow.
  destruct (Nat.leb_spec (reflect.Len s + extra) (reflect.Cap s)) as [Hfit|Hmore].
  - (* enough capacity *)
    unfold reflect.Slice.
    destruct (Nat.leb_spec (reflect.Len s + extra) (reflect.Cap s)); [|lia].
    simpl. eexists _, _. split; [reflexivity|]. simpl.
    split; [reflexivity|]. split; [reflexivity|].
    split; [unfold wfSlice; simpl; auto|].
    split; [reflexivity|]. left. auto.
  - (* a new array *)
    assert (Hnew : exists c,
      (if reflect.Cap s =? 0 then Some extra
       else doubleUntil (reflect.Len s + extra) (reflect.Cap s)
              (reflect.Len s + extra)) = Some c /\
      reflect.Len s + extra <= c /\ 2 * reflect.Cap s <= c /\ 1 <= c).
    { destruct (Nat.eqb_spec (reflect.Cap s) 0) as [Hz|Hnz].
      - exists extra. repeat split; lia.
      - destruct (@doubleUntil_newLen (reflect.Cap s) (reflect.Len s + extra))
          as (c & Hc & H1 & H2 & H3); [lia|].
        exists c. repeat split; auto; lia. }
    destruct Hnew as (c & -> & Hc1 & Hc2 & Hc3).
    unfold reflect.MakeSlice.
    destruct (Nat.leb_spec (reflect.Len s + extra) c); [|lia].
    simpl. eexists _, _. split; [reflexivity|]. simpl.
    unfold reflect.Copy; simpl.
    rewrite Nat.min_r by lia.
    rewrite load_app_old by assumption.
    rewrite load_app_new.
    rewrite update_last.
    assert (Hl : List.length
                   (firstn (reflect.Len s) (reflect.load h (reflect.array s))
                    ++ skipn (reflect.Len s)
                         (repeat (reflect.zero (reflect.Elem s)) c)) = c).
    { rewrite length_app, length_firstn, length_skipn, repeat_length. lia. }
    split; [reflexivity|]. split; [reflexivity|].
    split; [|split].
    + unfold wfSlice; simpl. rewrite load_app_new.
      rewrite length_app; simpl. repeat split; [lia|exact Hl|lia].
    + rewrite load_app_new.
      rewrite firstn_app, firstn_firstn, Nat.min_id.
      rewrite length_firstn.
      replace (reflect.Len s
               - Nat.min (reflect.Len s)
                   (List.length (reflect.load h (reflect.array s))))
        with 0 by lia.
      simpl. apply app_nil_r.
    + right. split; [lia|]. split; [|lia].
      rewrite map_app. simpl. rewrite Hl. reflexivity.
Qed.

Lemma last_cons (caps : list nat) :
  forall c1 c, last (c1 :: caps) c = last caps c1.
Proof.
  induction caps as [|c2 caps IH]; intros c1 c.
  - reflexivity.
  - change (last (c1 :: c2 :: caps) c) with (last (c2 :: caps) c).
    rewrite (IH c2 c), (IH c2 c1). reflexivity.
Qed.

Lemma grown_snoc (N c : nat) (caps : list nat) (c' : nat) :
  grown N c caps ->
  last caps c < N -> 2 * last caps c <= c' -> 1 <= c' ->
  grown N c (caps ++ [c']).
Proof.
  revert c. induction caps as [|c1 caps IH]; intros c Hg Hlt Hd Hp.
  - simpl in *. auto.
  - destruct Hg as (H1 & H2 & H3 & Hg).
    rewrite last_cons in Hlt, Hd.
    simpl. repeat split; auto.
Qed.

Lemma SetIndex_spec (h : reflect.heap) (s : reflect.SliceValue) (i : nat)
    (x : value) :
  wfSlice h s ->
  i < reflect.Len s ->
  assignable x (reflect.Elem s) = true ->
  exists h',
    reflect.SetIndex h s i x = Ok h' /\
    wfSlice h' s /\
    map (@List.length value) h' = map (@List.length value) h /\
    firstn (S i) (reflect.load h' (reflect.array s))
    = firstn i (reflect.load h (reflect.array s)) ++ [x].
Proof.
  intros (Harr & Hcap & Hlen) Hi Hx.
  unfold reflect.SetIndex.
  destruct (Nat.ltb_spec i (reflect.Len s)); [|lia].
  rewrite Hx. eexists. split; [reflexivity|].
  split; [|split].
  - unfold wfSlice. rewrite update_length.
    rewrite load_update_same by assumption.
    rewrite update_length. auto.
  - apply map_length_update. apply update_length.
  - rewrite load_update_same by assumption.
    apply firstn_update_next. lia.
Qed.

(** One pass of the loop of [ToSlice] keeps the invariant. *)
Lemma ToSlice_step (N : nat) (h0 : reflect.heap) (s0 : reflect.SliceValue)
    (done : list value) (st : reflect.heap * reflect.SliceValue * nat)
    (item : value) :
  ToSlice_inv N h0 s0 done st ->
  List.length done < N ->
  assignable item (reflect.Elem s0) = true ->
  exists st',
    ToSlice_body item st = Continue st' /\
    ToSlice_inv N h0 s0 (done ++ [item]) st'.
Proof.
  destruct st as [[h s] index].
  intros (Hindex & Hwf & Hlen & Helem & Hdone & caps & Hcaps & Hgrown
          & Hcap & Hsame) HN Hitem.
  unfold ToSlice_body.
  destruct (Nat.leb_spec (reflect.Len s) index) as [Hfull|Hroom].
  - (* the slice is used up: grow by one *)
    assert (Hlen_index : reflect.Len s = index) by lia.
    destruct (@grow_spec h s 1 Hwf)
      as (h1 & s1 & -> & Hlen1 & Helem1 & Hwf1 & Hkeep & Hcase).
    cbn [try].
    destruct (@SetIndex_spec h1 s1 index item Hwf1)
      as (h2 & -> & Hwf2 & Hmap2 & Hfirst); [lia|congruence|].
    cbn [try]. eexists. split; [reflexivity|].
    unfold ToSlice_inv.
    split; [rewrite length_app; simpl; lia|].
    split; [assumption|]. split; [lia|]. split; [congruence|].
    split.
    { rewrite Nat.add_1_r, Hfirst. rewrite <- Hlen_index, Hkeep.
      rewrite Hlen_index, Hdone. reflexivity. }
    destruct Hcase as [(Hfit & -> & Harr1 & Hcap1)
                      |(Hmore & Hmap1 & Hdouble & Hpos)].
    + exists caps. rewrite Hmap2.
      repeat split; auto; [congruence | intros Hnil; rewrite Harr1; auto].
    + exists (caps ++ [reflect.Cap s1]).
      rewrite Hmap2, Hmap1, Hcaps, <- app_assoc.
      split; [reflexivity|]. split; [|split].
      * apply grown_snoc; auto; rewrite <- Hcap; lia.
      * rewrite last_last. reflexivity.
      * intros Hnil. destruct caps; discriminate.
  - (* there is room at [index] *)
    cbn [try].
    destruct (@SetIndex_spec h s index item Hwf)
      as (h2 & -> & Hwf2 & Hmap2 & Hfirst); [lia|congruence|].
    cbn [try]. eexists. split; [reflexivity|].
    unfold ToSlice_inv.
    split; [rewrite length_app; simpl; lia|].
    split; [assumption|]. split; [lia|]. split; [assumption|].
    split; [rewrite Nat.add_1_r, Hfirst, Hdone; reflexivity|].
    exists caps. rewrite Hmap2. auto.
Qed.

Lemma ToSlice_loop (N : nat) (h0 : reflect.heap) (s0 : reflect.SliceValue)
    (rest : list value) :
  forall done st n,
    ToSlice_inv N h0 s0 done st ->
    List.length done + List.length rest <= N ->
    Forall (fun item => assignable item (reflect.Elem s0) = true) rest ->
    exists st',
      range_items ToSlice_body rest n st =
      (Continue st', mkIterator [] (S (n + List.length rest))) /\
      ToSlice_inv N h0 s0 (done ++ rest) st'.
Proof.
  induction rest as [|item rest IH]; intros done st n Hinv HN Hrest.
  - exists st. simpl. rewrite Nat.add_0_r, app_nil_r. auto.
  - inversion Hrest as [|? ? Hitem Hrest']; subst.
    simpl in HN.
    destruct (@ToSlice_step N h0 s0 done st item Hinv) as (st1 & Hbody & Hinv1);
      [lia|assumption|].
    cbn [range_items]. rewrite Hbody.
    destruct (IH (done ++ [item]) st1 (S n) Hinv1) as (st' & Hrun & Hinv');
      [rewrite length_app; simpl; lia|assumption|].
    exists st'. rewrite Hrun. split.
    + do 2 f_equal. simpl. lia.
    + rewrite <- app_assoc in Hinv'. exact Hinv'.
Qed.

Lemma ToSlice_unfold (q : Query) (h : reflect.heap)
    (result : reflect.SliceValue) :
  ToSlice q h result =
  finish (range_items ToSlice_body q 0 (h, result, 0))
    (fun '(h, slice, index) => s <- reflect.Slice slice index ;; Ok (h, s)).
Proof. reflexivity. Qed.

Lemma ToSlice_general (q : Query) (h : reflect.heap)
    (result : reflect.SliceValue) :
  wfSlice h result ->
  Forall (fun item => assignable item (reflect.Elem result) = true) q ->
  exists h' s' caps,
    ToSlice q h result = (Ok (h', s'), S (List.length q)) /\
    reflect.Len s' = List.length q /\
    firstn (List.length q) (reflect.load h' (reflect.array s')) = q /\
    wfSlice h' s' /\
    map (@List.length value) h' = map (@List.length value) h ++ caps /\
    grown (List.length q) (reflect.Cap result) caps /\
    reflect.Cap s' = last caps (reflect.Cap result) /\
    (List.length q <= reflect.Cap result ->
     caps = [] /\ reflect.array s' = reflect.array result /\
     List.length h' = List.length h).
Proof.
  intros Hwf Hq.
  destruct (@ToSlice_loop (List.length q) h result q [] (h, result, 0) 0)
    as ([[h' s1] index] & Hrun & Hinv).
  - unfold ToSlice_inv. repeat split; try apply Hwf; try lia.
    exists []. rewrite app_nil_r. simpl. auto.
  - simpl. lia.
  - assumption.
  - simpl in Hinv.
    destruct Hinv as (Hindex & (Harr & Hcap & Hlen) & Hle & Helem & Hdone
                      & caps & Hcaps & Hgrown & Hlast & Hsame).
    rewrite ToSlice_unfold, Hrun. unfold finish, reflect.Slice.
    destruct (Nat.leb_spec index (reflect.Cap s1)); [|lia].
    simpl. eexists _, _, caps. split; [reflexivity|]. simpl.
    split; [assumption|].
    split; [rewrite <- Hindex; assumption|].
    split; [unfold wfSlice; simpl; repeat split; auto; lia|].
    split; [assumption|]. split; [assumption|]. split; [assumption|].
    intros Hfits.
    assert (Hnil : caps = []).
    { destruct caps as [|c caps']; [reflexivity|].
      simpl in Hgrown. lia. }
    split; [assumption|]. split; [auto|].
    apply (f_equal (@List.length nat)) in Hcaps.
    rewrite Hnil, app_nil_r, !length_map in Hcaps. exact Hcaps.
Qed.

(** C5. For a well-formed destination slice and a sequence of N elements
    assignable to its element type, [ToSlice] reads the sequence once and
    leaves a slice of length exactly N whose first N cells are the
    elements in sequence order.  A new array is allocated only once the
    capacity at hand is too small for the N elements, and each allocation
    at least doubles the capacity: if N fits the destination's capacity,
    nothing is allocated and the destination's own array is written.  A
    destination of capacity 2 and one element end with length 1; a
    destination of capacity 0 and five elements allocate capacities 1, 2,
    4 and 8 and end with length 5. *)
Theorem ToSlice_spec :
  (forall q h result,
      wfSlice h result ->
      Forall (fun item => assignable item (reflect.Elem result) = true) q ->
      exists h' s' caps,
        ToSlice q h result = (Ok (h', s'), S (List.length q)) /\
        reflect.Len s' = List.length q /\
        firstn (List.length q) (reflect.load h' (reflect.array s')) = q /\
        wfSlice h' s' /\
        map (@List.length value) h' = map (@List.length value) h ++ caps /\
        grown (List.length q) (reflect.Cap result) caps /\
        reflect.Cap s' = last caps (reflect.Cap result) /\
        (List.length q <= reflect.Cap result ->
         caps = [] /\ reflect.array s' = reflect.array result /\
         List.length h' = List.length h)) /\
  ToSlice [VSigned Int 1] [[VSigned Int 7; VSigned Int 8]]
    (reflect.mkSlice 0 2 2 (TSigned Int))
  = (Ok ([[VSigned Int 1; VSigned Int 8]],
         reflect.mkSlice 0 1 2 (TSigned Int)), 2) /\
  (exists h',
      ToSlice [VSigned Int 1; VSigned Int 2; VSigned Int 3; VSigned Int 4;
               VSigned Int 5] [[]] (reflect.mkSlice 0 0 0 (TSigned Int))
      = (Ok (h', reflect.mkSlice 4 5 8 (TSigned Int)), 6) /\
      map (@List.length value) h' = [0; 1; 2; 4; 8]).
Proof.
  split; [exact ToSlice_general|]. split; [reflexivity|].
  eexists. split; reflexivity.
Qed.

Lemma ToSlice_spec_witness :
  exists h' s' caps,
    ToSlice [VSigned Int 1; VSigned Int 2; VSigned Int 3]
      [[VSigned Int 7; VSigned Int 8]] (reflect.mkSlice 0 1 2 (TSigned Int))
    = (Ok (h', s'), 4) /\
    reflect.Len s' = 3 /\
    firstn 3 (reflect.load h' (reflect.array s'))
    = [VSigned Int 1; VSigned Int 2; VSigned Int 3] /\
    wfSlice h' s' /\
    map (@List.length value) h' = [2] ++ caps /\
    grown 3 2 caps /\
    reflect.Cap s' = last caps 2 /\
    (3 <= 2 -> caps = [] /\ reflect.array s' = 0 /\ List.length h' = 1).
Proof.
  apply (proj1 ToSlice_spec
           [VSigned Int 1; VSigned Int 2; VSigned Int 3]
           [[VSigned Int 7; VSigned Int 8]]
           (reflect.mkSlice 0 1 2 (TSigned Int))).
  - unfold wfSlice; simpl; lia.
  - repeat constructor.
Defined.

(** * Further properties of the operators *)

(** ** Short-circuiting operators on predicates that do not panic *)

Lemma All_pure_loop (p : value -> bool) (items : list value) (n : nat) :
  returning
    (range_items (fun item (_ : unit) =>
       try (pure p item) (fun holds =>
         if negb holds then Return false else Continue tt)) items n tt)
    (fun _ => true)
  = (Ok (forallb p items), S (n + prefixLength p items)).
Proof.
  revert n. induction items as [|item rest IH]; intros n; simpl.
  - rewrite Nat.add_0_r. reflexivity.
  - destruct (p item); simpl.
    + rewrite IH. do 2 f_equal. lia.
    + rewrite Nat.add_0_r. reflexivity.
Qed.

(** X1. With a predicate that does not panic, [All] answers whether every
    element satisfies it, and has called the cursor once more than there
    are leading elements that satisfy it: it stops at the first element
    that fails, and reads to the end only when none does. *)
Theorem All_answer (q : Query) (p : value -> bool) :
  All q (pure p) = (Ok (forallb p q), S (prefixLength p q)).
Proof.
  unfold All, for_next, Iterate; simpl. apply All_pure_loop.
Qed.

Lemma AnyWith_pure_loop (p : value -> bool) (items : list value) (n : nat) :
  returning
    (range_items (fun item (_ : unit) =>
       try (pure p item) (fun holds =>
         if holds then Return true else Continue tt)) items n tt)
    (fun _ => false)
  = (Ok (existsb p items),
     S (n + prefixLength (fun x => negb (p x)) items)).
Proof.
  revert n. induction items as [|item rest IH]; intros n; simpl.
  - rewrite Nat.add_0_r. reflexivity.
  - destruct (p item); simpl.
    + rewrite Nat.add_0_r. reflexivity.
    + rewrite IH. do 2 f_equal. lia.
Qed.

(** X2. With a predicate that does not panic, [AnyWith] answers whether
    some element satisfies it, and stops at the first one that does: the
    cursor is called once more than there are leading elements that do
    not satisfy the predicate. *)
Theorem AnyWith_answer (q : Query) (p : value -> bool) :
  AnyWith q (pure p)
  = (Ok (existsb p q), S (prefixLength (fun x => negb (p x)) q)).
Proof.
  unfold AnyWith, for_next, Iterate; simpl. apply AnyWith_pure_loop.
Qed.

Lemma FirstWith_pure_loop (p : value -> bool) (items : list value) (n : nat) :
  returning
    (range_items (fun item (_ : unit) =>
       try (pure p item) (fun holds =>
         if holds then Return item else Continue tt)) items n tt)
    (fun _ => VNil)
  = (Ok (hd VNil (filter p items)),
     S (n + prefixLength (fun x => negb (p x)) items)).
Proof.
  revert n. induction items as [|item rest IH]; intros n; simpl.
  - rewrite Nat.add_0_r. reflexivity.
  - destruct (p item); simpl.
    + rewrite Nat.add_0_r. reflexivity.
    + rewrite IH. do 2 f_equal. lia.
Qed.

(** X3. With a predicate that does not panic, [FirstWith] answers what
    [First] answers on the sequence of the elements that satisfy the
    predicate, and stops reading at the first of them. *)
Theorem FirstWith_is_First_of_filter (q : Query) (p : value -> bool) :
  FirstWith q (pure p)
  = (Ok (fst (First (filter p q))),
     S (prefixLength (fun x => negb (p x)) q)).
Proof.
  unfold FirstWith, for_next, Iterate; simpl.
  etransitivity; [apply (FirstWith_pure_loop p q 0)|].
  f_equal. f_equal. destruct (filter p q); reflexivity.
Qed.

Lemma Contains_loop (v : value) (items : list value) (n : nat) :
  returning
    (range_items (fun item (_ : unit) =>
       if go_eq item v then Return true else Continue tt) items n tt)
    (fun _ => false)
  = (Ok (existsb (fun x => go_eq x v) items),
     S (n + prefixLength (fun x => negb (go_eq x v)) items)).
Proof.
  revert n. induction items as [|item rest IH]; intros n; simpl.
  - rewrite Nat.add_0_r. reflexivity.
  - destruct (go_eq item v); simpl.
    + rewrite Nat.add_0_r. reflexivity.
    + rewrite IH. do 2 f_equal. lia.
Qed.

(** Nothing is [==] to a NaN. *)
Lemma go_eq_nan_r (x : value) (k : floatKind) :
  go_eq x (VFloat k PrimFloat.nan) = false.
Proof.
  destruct x as [| | | |k' f|]; try reflexivity.
  simpl. rewrite andb_false_iff. right.
  rewrite FloatAxioms.eqb_spec.
  change (Prim2SF PrimFloat.nan) with S754_nan.
  unfold SFeqb, SFcompare. destruct (Prim2SF f); reflexivity.
Qed.

(** X4. [Contains] answers whether some element is [==] to the value, and
    stops at the first such element; it is [AnyWith] on the predicate
    "equals the value", answer and cursor calls alike.  A NaN is never
    contained, not even in a sequence that holds it. *)
Theorem Contains_spec (q : Query) (v : value) :
  Contains q v
  = (Ok (existsb (fun x => go_eq x v) q),
     S (prefixLength (fun x => negb (go_eq x v)) q))
  /\ Contains q v = AnyWith q (pure (fun x => go_eq x v))
  /\ (forall k, fst (Contains q (VFloat k PrimFloat.nan)) = Ok false).
Proof.
  assert (H : Contains q v
              = (Ok (existsb (fun x => go_eq x v) q),
                 S (prefixLength (fun x => negb (go_eq x v)) q))).
  { unfold Contains, for_next, Iterate; simpl. apply Contains_loop. }
  split; [exact H|]. split.
  - rewrite H. symmetry. unfold AnyWith, for_next, Iterate; simpl.
    apply (AnyWith_pure_loop (fun x => go_eq x v) q 0).
  - intros k. clear H. unfold Contains, for_next, Iterate; simpl.
    rewrite Contains_loop. simpl. f_equal.
    induction q as [|x q IH]; simpl; [reflexivity|].
    rewrite IH, go_eq_nan_r. reflexivity.
Qed.

(** ** Operators that read the whole sequence *)

Lemma Count_loop (items : list value) :
  forall (r : Z) (n : nat),
    range_items (fun (_ : value) (r : Z) => Continue (R := Z) (r + 1)%Z)
      items n r
    = (Continue (r + Z.of_nat (List.length items))%Z,
       mkIterator [] (S (n + List.length items))).
Proof.
  induction items as [|item rest IH]; intros r n; simpl List.length.
  - simpl. rewrite Z.add_0_r, Nat.add_0_r. reflexivity.
  - cbn [range_items]. rewrite IH. do 2 f_equal; [lia|f_equal; lia].
Qed.

Lemma Count_run (q : Query) :
  Count q = (Ok (Z.of_nat (List.length q)), S (List.length q)).
Proof.
  unfold Count, for_next, Iterate; simpl pending; simpl calls.
  rewrite Count_loop. reflexivity.
Qed.

(** X5. [Count] answers the number of elements and reads the sequence to
    its end. *)
Theorem Count_spec (q : Query) :
  Count q = (Ok (Z.of_nat (List.length q)), S (List.length q)).
Proof. apply Count_run. Qed.

Lemma CountWith_pure_loop (p : value -> bool) (items : list value) :
  forall (r : Z) (n : nat),
    range_items (fun item (r : Z) =>
      try (pure p item) (fun holds =>
        if holds then Continue (R := Z) (r + 1)%Z else Continue r))
      items n r
    = (Continue (r + Z.of_nat (List.length (filter p items)))%Z,
       mkIterator [] (S (n + List.length items))).
Proof.
  induction items as [|item rest IH]; intros r n.
  - simpl. rewrite Z.add_0_r, Nat.add_0_r. reflexivity.
  - cbn [range_items pure try filter]. destruct (p item).
    + rewrite IH. simpl List.length. do 2 f_equal; [lia|f_equal; lia].
    + rewrite IH. simpl List.length. do 2 f_equal. f_equal; lia.
Qed.

Lemma CountWith_run (q : Query) (p : value -> bool) :
  CountWith q (pure p)
  = (Ok (Z.of_nat (List.length (filter p q))), S (List.length q)).
Proof.
  unfold CountWith, for_next, Iterate; simpl pending; simpl calls.
  rewrite CountWith_pure_loop. reflexivity.
Qed.

(** X6. With a predicate that does not panic, [CountWith] answers the
    number of elements that satisfy it, which [Count] bounds, and reads
    the sequence to its end. *)
Theorem CountWith_spec (q : Query) (p : value -> bool) :
  CountWith q (pure p)
  = (Ok (Z.of_nat (List.length (filter p q))), S (List.length q))
  /\ (exists c t, fst (CountWith q (pure p)) = Ok c /\
                  fst (Count q) = Ok t /\ (0 <= c <= t)%Z).
Proof.
  pose proof (CountWith_run q p) as H.
  split; [exact H|].
  exists (Z.of_nat (List.length (filter p q))), (Z.of_nat (List.length q)).
  rewrite H, Count_run. repeat split; try lia.
  apply inj_le. apply filter_length_le.
Qed.

Lemma Results_loop (items : list value) :
  forall (r : list value) (n : nat),
    range_items (fun item (r : list value) =>
      Continue (R := list value) (r ++ [item])) items n r
    = (Continue (r ++ items), mkIterator [] (S (n + List.length items))).
Proof.
  induction items as [|item rest IH]; intros r n; simpl.
  - rewrite app_nil_r, Nat.add_0_r. reflexivity.
  - rewrite IH, <- app_assoc. simpl. do 3 f_equal. lia.
Qed.

(** X7. [Results] answers the elements of the sequence, all of them and
    in order, so that [Count] is the length of [Results]. *)
Theorem Results_spec (q : Query) :
  Results q = (Ok q, S (List.length q))
  /\ (exists r, fst (Results q) = Ok r /\
                fst (Count q) = Ok (Z.of_nat (List.length r))).
Proof.
  assert (H : Results q = (Ok q, S (List.length q))).
  { unfold Results, for_next, Iterate; simpl.
    rewrite Results_loop. reflexivity. }
  split; [exact H|]. exists q. rewrite H, Count_run. auto.
Qed.

Lemma last_cons_default (A : Type) (l : list A) (x d : A) :
  last l x = last (x :: l) d.
Proof.
  revert x d. induction l as [|y l IH]; intros x d; [reflexivity|].
  change (last (x :: y :: l) d) with (last (y :: l) d).
  rewrite <- (IH y d). rewrite <- (IH y x). reflexivity.
Qed.

Lemma Last_loop (items : list value) :
  forall (r : value) (n : nat),
    range_items (fun item (_ : value) => Continue (R := value) item)
      items n r
    = (Continue (last items r), mkIterator [] (S (n + List.length items))).
Proof.
  induction items as [|item rest IH]; intros r n.
  - simpl. rewrite Nat.add_0_r. reflexivity.
  - cbn [range_items]. rewrite IH, (last_cons_default rest item r).
    simpl List.length. do 3 f_equal. lia.
Qed.

Lemma LastWith_pure_loop (p : value -> bool) (items : list value) :
  forall (r : value) (n : nat),
    range_items (fun item (r : value) =>
      try (pure p item) (fun holds =>
        if holds then Continue (R := value) item else Continue r))
      items n r
    = (Continue (last (filter p items) r),
       mkIterator [] (S (n + List.length items))).
Proof.
  induction items as [|item rest IH]; intros r n.
  - simpl. rewrite Nat.add_0_r. reflexivity.
  - cbn [range_items pure try filter]. destruct (p item).
    + rewrite IH, (last_cons_default (filter p rest) item r).
      simpl List.length. do 3 f_equal. lia.
    + rewrite IH. simpl List.length. do 3 f_equal. lia.
Qed.

Lemma Last_run (q : Query) :
  Last q = (Ok (last q VNil), S (List.length q)).
Proof.
  unfold Last, for_next, Iterate; simpl.
  rewrite Last_loop. reflexivity.
Qed.

Lemma LastWith_run (q : Query) (p : value -> bool) :
  LastWith q (pure p) = (Ok (last (filter p q) VNil), S (List.length q)).
Proof.
  unfold LastWith, for_next, Iterate; simpl pending; simpl calls.
  rewrite LastWith_pure_loop. reflexivity.
Qed.

(** X8. [Last] answers the last element, nil on the empty sequence, and
    [LastWith], with a predicate that does not panic, answers what [Last]
    answers on the elements that satisfy the predicate; both read the
    sequence to its end. *)
Theorem Last_LastWith_spec (q : Query) (p : value -> bool) :
  Last q = (Ok (last q VNil), S (List.length q))
  /\ LastWith q (pure p) = (fst (Last (filter p q)), S (List.length q)).
Proof.
  split; [apply Last_run|]. rewrite Last_run. apply LastWith_run.
Qed.

(** ** Single and SingleWith *)

Lemma Single_run (q : Query) :
  Single q = (match q with [x] => x | _ => VNil end,
              Nat.min 2 (S (List.length q))).
Proof.
  destruct q as [|x [|y rest]]; reflexivity.
Qed.

(** X9. [Single] answers the element of a one-element sequence and nil
    on every other sequence, the empty one included; it never calls the
    cursor more than twice. *)
Theorem Single_spec (q : Query) :
  Single q = (match q with [x] => x | _ => VNil end,
              Nat.min 2 (S (List.length q))).
Proof. apply Single_run. Qed.

Lemma SingleWith_found_loop (p : value -> bool) (items : list value) :
  forall (r : value) (n : nat),
    fst (returning
      (range_items (fun item '(found, r) =>
         try (pure p item) (fun holds =>
           if holds then
             if (found : bool) then Return VNil
             else Continue (true, item)
           else Continue (found, r))) items n (true, r))
      (fun '(_, r) => r))
    = Ok (match filter p items with [] => r | _ => VNil end).
Proof.
  induction items as [|item rest IH]; intros r n.
  - reflexivity.
  - cbn [range_items pure try filter]. destruct (p item).
    + reflexivity.
    + apply IH.
Qed.

Lemma SingleWith_pure_loop (p : value -> bool) (items : list value) :
  forall (n : nat),
    fst (returning
      (range_items (fun item '(found, r) =>
         try (pure p item) (fun holds =>
           if holds then
             if (found : bool) then Return VNil
             else Continue (true, item)
           else Continue (found, r))) items n (false, VNil))
      (fun '(_, r) => r))
    = Ok (match filter p items with [x] => x | _ => VNil end).
Proof.
  induction items as [|item rest IH]; intros n.
  - reflexivity.
  - cbn [range_items pure try filter]. destruct (p item).
    + etransitivity; [apply (SingleWith_found_loop p rest item (S n))|].
      destruct (filter p rest); reflexivity.
    + apply IH.
Qed.

(** X10. With a predicate that does not panic, [SingleWith] answers what
    [Single] answers on the sequence of the elements that satisfy the
    predicate: that element when there is exactly one, nil otherwise. *)
Theorem SingleWith_is_Single_of_filter (q : Query) (p : value -> bool) :
  fst (SingleWith q (pure p)) = Ok (fst (Single (filter p q))).
Proof.
  rewrite Single_run. unfold SingleWith, for_next, Iterate.
  simpl pending; simpl calls. apply SingleWith_pure_loop.
Qed.

(** ** Operators without a predicate and the always-true predicate *)

(** X11. [Any], [Count], [First], [Last] and [Single] do what [AnyWith],
    [CountWith], [FirstWith], [LastWith] and [SingleWith] do with the
    predicate that always holds: the same answer after the same number of
    cursor calls. *)
Theorem without_predicate_is_always_true (q : Query) :
  let always := pure (fun _ => true) in
  AnyWith q always = (Ok (fst (Any q)), snd (Any q)) /\
  CountWith q always = Count q /\
  FirstWith q always = (Ok (fst (First q)), snd (First q)) /\
  LastWith q always = Last q /\
  SingleWith q always = (Ok (fst (Single q)), snd (Single q)).
Proof.
  cbv zeta.
  split; [destruct q; reflexivity|].
  split; [reflexivity|].
  split; [destruct q; reflexivity|].
  split; [reflexivity|].
  destruct q as [|x [|y rest]]; reflexivity.
Qed.

(** ** A panicking predicate *)



(** ** SumUInts and SumFloats *)

Lemma addu64_loop (conv : value -> outcome Z) (items : list value) :
  (forall v, In v items -> conv v = Ok (intOf v)) ->
  forall (r : Z) (n : nat),
    range_items (fun item r =>
      try (conv item) (fun x => Continue (R := Z) (addu64 r x))) items n r =
    (Continue (match items with
               | [] => r
               | _ => wrapu64 (r + sumOf items)
               end),
     mkIterator [] (S (n + List.length items))).
Proof.
  induction items as [|item rest IH]; intros Hconv r n; simpl.
  - rewrite Nat.add_0_r. reflexivity.
  - rewrite Hconv by (left; reflexivity). simpl.
    rewrite IH by (intros; apply Hconv; right; assumption).
    f_equal.
    + f_equal. unfold addu64. destruct rest as [|y rest'].
      * simpl. f_equal. lia.
      * rewrite wrapu64_add_l. f_equal. simpl. lia.
    + f_equal. lia.
Qed.

Lemma SumUInts_wrapped (q : Query) :
  q <> [] ->
  Forall (fun v => isUnsigned v /\ wf_value v) q ->
  SumUInts q = (Ok (wrapu64 (sumOf q)), S (List.length q)).
Proof.
  destruct q as [|x rest]; [congruence|]. intros _ Hq.
  inversion Hq as [|? ? [Hx Hwf] Hrest]; subst.
  destruct x as [| | |k z| |]; simpl in Hx; try contradiction.
  unfold SumUInts, Iterate, call; simpl.
  unfold for_next; simpl.
  rewrite addu64_loop.
  - simpl. f_equal. f_equal. destruct rest; [|reflexivity].
    simpl. rewrite Z.add_0_r. symmetry. apply wrapu64_id.
    eapply wf_unsigned_uint64; eassumption.
  - intros v Hin. rewrite Forall_forall in Hrest.
    destruct (Hrest v Hin) as [Hv _].
    destruct v; simpl in Hv; try contradiction. reflexivity.
Qed.

(** X13. [SumUInts] answers 0 on the empty sequence and, on a non-empty
    sequence of unsigned integers of any widths, their sum in [uint64]
    arithmetic: the exact sum modulo 2^64, hence the exact sum whenever
    that fits.  It reads the sequence once. *)
Theorem SumUInts_spec :
  SumUInts [] = (Ok 0%Z, 1) /\
  (forall q,
      q <> [] ->
      Forall (fun v => isUnsigned v /\ wf_value v) q ->
      SumUInts q = (Ok (wrapu64 (sumOf q)), S (List.length q)) /\
      (uint64_range (sumOf q) ->
       SumUInts q = (Ok (sumOf q), S (List.length q)))).
Proof.
  split; [reflexivity|].
  intros q Hne Hq. split.
  - apply SumUInts_wrapped; assumption.
  - intros Hfit. rewrite SumUInts_wrapped by assumption.
    rewrite wrapu64_id by assumption. reflexivity.
Qed.

Lemma SumUInts_spec_witness :
  SumUInts [VUnsigned Uint64 (2 ^ 64 - 1); VUnsigned Uint8 2]
  = (Ok 1%Z, 3).
Proof.
  refine (eq_trans
            (proj1 (proj2 SumUInts_spec
               [VUnsigned Uint64 (2 ^ 64 - 1); VUnsigned Uint8 2] _ _)) _).
  - discriminate.
  - repeat constructor; simpl; lia.
  - reflexivity.
Defined.

Lemma sum_float_loop (conv : value -> outcome float) (items : list value) :
  (forall v, In v items -> conv v = Ok (floatOf v)) ->
  forall (r : float) (n : nat),
    range_items (fun item r =>
      try (conv item) (fun x => Continue (R := float) (r + x)%float))
      items n r =
    (Continue (fold_left PrimFloat.add (map floatOf items) r),
     mkIterator [] (S (n + List.length items))).
Proof.
  induction items as [|item rest IH]; intros Hconv r n.
  - simpl. rewrite Nat.add_0_r. reflexivity.
  - cbn [range_items]. rewrite Hconv by (left; reflexivity).
    cbn [try]. rewrite IH by (intros; apply Hconv; right; assumption).
    simpl. do 3 f_equal. lia.
Qed.

Lemma SumFloats_run (x : value) (rest : list value) :
  Forall isFloat (x :: rest) ->
  SumFloats (x :: rest)
  = (Ok (fold_left PrimFloat.add (map floatOf rest) (floatOf x)),
     S (S (List.length rest))).
Proof.
  intros Hq. inversion Hq as [|? ? Hx Hrest]; subst.
  destruct x as [| | | |k f|]; simpl in Hx; try contradiction.
  unfold SumFloats, Iterate, call, for_next; simpl.
  rewrite sum_float_loop; [reflexivity|].
  intros v Hin. rewrite Forall_forall in Hrest. specialize (Hrest v Hin).
  destruct v; simpl in Hrest; try contradiction. reflexivity.
Qed.

(** X14. [SumFloats] answers 0 on the empty sequence and, on a non-empty
    sequence of floats, the [float64] sum taken from left to right
    starting from the first element; so a one-element sequence sums to
    that element itself, a negative zero included. *)
Theorem SumFloats_spec :
  SumFloats [] = (Ok 0%float, 1) /\
  (forall x rest,
      Forall isFloat (x :: rest) ->
      SumFloats (x :: rest)
      = (Ok (fold_left PrimFloat.add (map floatOf rest) (floatOf x)),
         S (S (List.length rest)))) /\
  SumFloats [VFloat Float64 (-0)] = (Ok (-0)%float, 2).
Proof.
  split; [reflexivity|]. split; [exact SumFloats_run|reflexivity].
Qed.

Lemma SumFloats_spec_witness :
  SumFloats [VFloat Float32 1.5; VFloat Float64 2.25] = (Ok 3.75%float, 3).
Proof.
  refine (eq_trans
            (proj1 (proj2 SumFloats_spec) (VFloat Float32 1.5)
               [VFloat Float64 2.25] _) _).
  - repeat constructor.
  - vm_compute. reflexivity.
Defined.

(** ** Average, the sums and Count *)

(** X15. On a non-empty numeric sequence [Average] is the quotient of the
    matching sum operator and [Count]: [float64(SumInts) / float64(Count)]
    for signed integers, [float64(SumUInts) / float64(Count)] for
    unsigned ones, [SumFloats / float64(Count)] for floats.  In
    particular an integer sum that wraps around wraps in [Average]
    too. *)
Theorem Average_is_Sum_over_Count (q : Query) :
  q <> [] ->
  Forall wf_value q ->
  (Forall isSigned q ->
   exists s c, fst (SumInts q) = Ok s /\ fst (Count q) = Ok c /\
     fst (Average q) = Ok (float64_of_Z s / float64_of_Z c)%float) /\
  (Forall isUnsigned q ->
   exists s c, fst (SumUInts q) = Ok s /\ fst (Count q) = Ok c /\
     fst (Average q) = Ok (float64_of_Z s / float64_of_Z c)%float) /\
  (Forall isFloat q ->
   exists s c, fst (SumFloats q) = Ok s /\ fst (Count q) = Ok c /\
     fst (Average q) = Ok (s / float64_of_Z c)%float).
Proof.
  intros Hne Hwf.
  assert (Hboth : forall (P : value -> Prop),
            Forall P q -> Forall (fun v => P v /\ wf_value v) q).
  { intros P HP. rewrite Forall_forall in *. auto. }
  split; [|split]; intros Hfam.
  - pose proof (SumInts_wrapped Hne (Hboth _ Hfam)) as Hs.
    pose proof (@Average_numeric q Hne (conj Hwf (or_introl Hfam))) as Ha.
    exists (wrap64 (sumOf q)), (Z.of_nat (List.length q)).
    rewrite Hs, Count_run, Ha.
    split; [reflexivity|]. split; [reflexivity|]. simpl fst. do 2 f_equal.
    destruct q as [|x rest]; [congruence|].
    inversion Hfam as [|? ? Hx _]; subst.
    destruct x; simpl in Hx; try contradiction. reflexivity.
  - pose proof (SumUInts_wrapped Hne (Hboth _ Hfam)) as Hs.
    pose proof (@Average_numeric q Hne
                  (conj Hwf (or_intror (or_introl Hfam)))) as Ha.
    exists (wrapu64 (sumOf q)), (Z.of_nat (List.length q)).
    rewrite Hs, Count_run, Ha.
    split; [reflexivity|]. split; [reflexivity|]. simpl fst. do 2 f_equal.
    destruct q as [|x rest]; [congruence|].
    inversion Hfam as [|? ? Hx _]; subst.
    destruct x; simpl in Hx; try contradiction. reflexivity.
  - pose proof (@Average_numeric q Hne
                  (conj Hwf (or_intror (or_intror Hfam)))) as Ha.
    destruct q as [|x rest]; [congruence|].
    pose proof (SumFloats_run Hfam) as Hs.
    exists (fold_left PrimFloat.add (map floatOf rest) (floatOf x)),
           (Z.of_nat (List.length (x :: rest))).
    rewrite Hs, Count_run, Ha.
    split; [reflexivity|]. split; [reflexivity|]. simpl fst. do 2 f_equal.
    inversion Hfam as [|? ? Hx _]; subst.
    destruct x; simpl in Hx; try contradiction. reflexivity.
Qed.

Lemma Average_is_Sum_over_Count_witness :
  exists s c,
    fst (SumInts [VSigned Int64 (2 ^ 63 - 1); VSigned Int64 1]) = Ok s /\
    fst (Count [VSigned Int64 (2 ^ 63 - 1); VSigned Int64 1]) = Ok c /\
    fst (Average [VSigned Int64 (2 ^ 63 - 1); VSigned Int64 1])
    = Ok (float64_of_Z s / float64_of_Z c)%float.
Proof.
  refine (proj1 (@Average_is_Sum_over_Count
                   [VSigned Int64 (2 ^ 63 - 1); VSigned Int64 1] _ _) _).
  - discriminate.
  - repeat constructor; simpl; lia.
  - repeat constructor.
Defined.

(** The average of the largest [int64] and 1 is negative. *)
Example Average_wraps :
  Average [VSigned Int64 (2 ^ 63 - 1); VSigned Int64 1]
  = (Ok (-4611686018427387904)%float, 3).
Proof. vm_compute. reflexivity. Qed.

(** ** SequenceEqual, step by step *)

Lemma SequenceEqual_calls_loop (q : list value) :
  forall (q2 : list value) (n m : nat),
    match
      range_items (fun item next2 =>
        let '(item2, ok2, next2) := call next2 in
        if negb ok2 || negb (go_eq item item2)
        then Return (false, next2)
        else Continue next2) q n (mkIterator q2 m)
    with
    | (Return (r, next2), next) => (r, calls next, calls next2)
    | (Continue next2, next) =>
        let '(_, ok2, next2) := call next2 in
        (negb ok2, calls next, calls next2)
    | (Raise _, next) => (false, calls next, 0)
    end
    = (lockstep q q2, S (n + commonPrefix q q2), S (m + commonPrefix q q2)).
Proof.
  induction q as [|x q IH]; intros [|y q2] n m; simpl;
    rewrite ?Nat.add_0_r; try reflexivity.
  destruct (go_eq x y); simpl.
  - rewrite IH. f_equal; [f_equal|]; lia.
  - rewrite !Nat.add_0_r. reflexivity.
Qed.

(** X16. [SequenceEqual] advances the two cursors in lock step and stops
    at the first position where the sequences differ or one of them ends:
    each cursor is called once more than the two sequences have equal
    leading elements, so neither sequence is read past the first
    difference. *)
Theorem SequenceEqual_lock_step (q q2 : Query) :
  SequenceEqual q q2
  = (lockstep q q2, S (commonPrefix q q2), S (commonPrefix q q2))
  /\ commonPrefix q q2 <= Nat.min (List.length q) (List.length q2).
Proof.
  split.
  - unfold SequenceEqual, for_next, Iterate; simpl.
    apply (SequenceEqual_calls_loop q q2 0 0).
  - revert q2. induction q as [|x q IH]; intros [|y q2]; simpl; try lia.
    destruct (go_eq x y); [|lia]. specialize (IH q2). lia.
Qed.

(** ** Equality of elements *)

Lemma SFeqb_true_inv (a b : spec_float) :
  SFeqb a b = true ->
  (exists s s', a = S754_zero s /\ b = S754_zero s') \/
  (a = b /\ a <> S754_nan).
Proof.
  unfold SFeqb, SFcompare.
  destruct a as [s1|s1| |s1 m1 e1], b as [s2|s2| |s2 m2 e2];
    try discriminate;
    try (destruct s1; discriminate); try (destruct s2; discriminate).
  - intros _. left. eauto.
  - destruct s1, s2; try discriminate; intros _; right;
      (split; [reflexivity|discriminate]).
  - destruct s1, s2; try discriminate;
      destruct (Z.compare e1 e2) eqn:He; try discriminate;
      destruct (Pos.compare_cont Eq m1 m2) eqn:Hm; try discriminate;
      intros _; right; (split; [|discriminate]);
      apply Z.compare_eq in He; apply Pos.compare_eq in Hm;
      subst; reflexivity.
Qed.

Lemma SFeqb_refl (a : spec_float) : a <> S754_nan -> SFeqb a a = true.
Proof.
  unfold SFeqb, SFcompare. destruct a as [s|s| |s m e]; intros H;
    try reflexivity; try congruence.
  - destruct s; reflexivity.
  - rewrite Z.compare_refl.
    change (Pos.compare_cont Eq m m) with (Pos.compare m m).
    rewrite Pos.compare_refl. destruct s; reflexivity.
Qed.

Lemma SFeqb_sym (a b : spec_float) : SFeqb a b = true -> SFeqb b a = true.
Proof.
  intros H. destruct (SFeqb_true_inv _ _ H) as [(s & s' & -> & ->)|[-> Hn]].
  - reflexivity.
  - apply SFeqb_refl; assumption.
Qed.

Lemma SFeqb_trans (a b c : spec_float) :
  SFeqb a b = true -> SFeqb b c = true -> SFeqb a c = true.
Proof.
  intros Hab Hbc.
  destruct (SFeqb_true_inv _ _ Hab) as [(s & s' & -> & ->)|[-> Hn]];
    [|assumption].
  destruct (SFeqb_true_inv _ _ Hbc) as [(t & t' & _ & ->)|[<- _]];
    reflexivity.
Qed.

Lemma float_eqb_sym (f g : float) :
  PrimFloat.eqb f g = true -> PrimFloat.eqb g f = true.
Proof. rewrite !FloatAxioms.eqb_spec. apply SFeqb_sym. Qed.

Lemma float_eqb_trans (f g h : float) :
  PrimFloat.eqb f g = true -> PrimFloat.eqb g h = true ->
  PrimFloat.eqb f h = true.
Proof. rewrite !FloatAxioms.eqb_spec. apply SFeqb_trans. Qed.

(** Two [==] elements are the same element, or two floats of one type
    that compare equal (the two zeros). *)
Lemma go_eq_true_inv (x y : value) :
  go_eq x y = true ->
  x = y \/
  exists k f g, x = VFloat k f /\ y = VFloat k g /\ PrimFloat.eqb f g = true.
Proof.
  destruct x as [|a|k a|k a|k f|a], y as [|b|k' b|k' b|k' g|b];
    simpl; try discriminate; intros H.
  - auto.
  - left. apply Bool.eqb_prop in H. congruence.
  - left. apply andb_true_iff in H. destruct H as [Hk Hz].
    apply Z.eqb_eq in Hz. destruct k, k'; try discriminate; congruence.
  - left. apply andb_true_iff in H. destruct H as [Hk Hz].
    apply Z.eqb_eq in Hz. destruct k, k'; try discriminate; congruence.
  - right. apply andb_true_iff in H. destruct H as [Hk Hf].
    exists k, f, g. destruct k, k'; try discriminate; auto.
  - left. apply String.eqb_eq in H. congruence.
Qed.


Lemma go_eq_sym_true (x y : value) : go_eq x y = true -> go_eq y x = true.
Proof.
  intros H. destruct (go_eq_true_inv _ _ H) as [->|(k & f & g & -> & -> & E)].
  - assumption.
  - simpl in *. apply andb_true_iff in H. destruct H as [Hk _].
    rewrite Hk. simpl. apply float_eqb_sym. assumption.
Qed.

Lemma go_eq_sym (x y : value) : go_eq x y = go_eq y x.
Proof.
  destruct (go_eq x y) eqn:E1, (go_eq y x) eqn:E2; try reflexivity.
  - apply go_eq_sym_true in E1. congruence.
  - apply go_eq_sym_true in E2. congruence.
Qed.

Lemma go_eq_trans (x y z : value) :
  go_eq x y = true -> go_eq y z = true -> go_eq x z = true.
Proof.
  intros Hxy Hyz.
  destruct (go_eq_true_inv _ _ Hxy) as [->|(k & f & g & -> & -> & E)];
    [assumption|].
  destruct (go_eq_true_inv _ _ Hyz) as [<-|(k' & g' & h & Hg & -> & E')];
    [assumption|].
  inversion Hg; subst. simpl.
  assert (Hk : floatKind_eqb k' k' = true) by (destruct k'; reflexivity).
  rewrite Hk. simpl. eapply float_eqb_trans; eassumption.
Qed.






(** ** Min and Max together *)

(** X18. On a non-empty sequence that its comparer orders totally, [Min]
    and [Max] answer elements of the sequence, and every element of the
    sequence lies between them: the comparer puts no element below the
    answer of [Min] and none above the answer of [Max]. *)
Theorem Min_Max_bounds (x : value) (rest : list value) :
  total_on (getComparer x) (x :: rest) ->
  exists lo hi,
    fst (Min (x :: rest)) = Ok lo /\
    fst (Max (x :: rest)) = Ok hi /\
    In lo (x :: rest) /\ In hi (x :: rest) /\
    forall y, In y (x :: rest) ->
      exists c d,
        getComparer x lo y = Ok c /\ (c <= 0)%Z /\
        getComparer x y hi = Ok d /\ (d <= 0)%Z.
Proof.
  intros Htotal.
  destruct (Min_first_minimal Htotal)
    as (b1 & lo & a1 & Heq1 & Hmin & Hb1 & Ha1).
  destruct (Max_first_maximal Htotal)
    as (b2 & hi & a2 & Heq2 & Hmax & Hb2 & Ha2).
  destruct Htotal as (ord & Hcmp & Hanti & Htrans).
  assert (Hlo : In lo (x :: rest))
    by (rewrite Heq1, in_app_iff; simpl; auto).
  assert (Hhi : In hi (x :: rest))
    by (rewrite Heq2, in_app_iff; simpl; auto).
  assert (Hrefl : forall a, In a (x :: rest) -> ord a a = 0%Z).
  { intros a Ha. pose proof (Hanti a a Ha Ha). lia. }
  exists lo, hi. rewrite Hmin, Hmax.
  repeat split; auto.
  intros y Hy. exists (ord lo y), (ord y hi).
  split; [apply Hcmp; assumption|]. split; [|split].
  - rewrite (Hanti y lo Hy Hlo).
    pose proof Hy as Hy'. rewrite Heq1, in_app_iff in Hy'.
    destruct Hy' as [Hin|[<-|Hin]].
    + destruct (Hb1 y Hin) as (c & Hc & Hpos).
      rewrite (Hcmp y lo Hy Hlo) in Hc. inversion Hc. lia.
    + rewrite Hrefl by assumption. lia.
    + destruct (Ha1 y Hin) as (c & Hc & Hpos).
      rewrite (Hcmp y lo Hy Hlo) in Hc. inversion Hc. lia.
  - apply Hcmp; assumption.
  - pose proof Hy as Hy'. rewrite Heq2, in_app_iff in Hy'.
    destruct Hy' as [Hin|[<-|Hin]].
    + destruct (Hb2 y Hin) as (c & Hc & Hneg).
      rewrite (Hcmp y hi Hy Hhi) in Hc. inversion Hc. lia.
    + rewrite Hrefl by assumption. lia.
    + destruct (Ha2 y Hin) as (c & Hc & Hneg).
      rewrite (Hcmp y hi Hy Hhi) in Hc. inversion Hc. lia.
Qed.

Lemma Min_Max_bounds_witness :
  exists lo hi,
    fst (Min [VSigned Int 3; VSigned Int 1; VSigned Int 2]) = Ok lo /\
    fst (Max [VSigned Int 3; VSigned Int 1; VSigned Int 2]) = Ok hi /\
    In lo [VSigned Int 3; VSigned Int 1; VSigned Int 2] /\
    In hi [VSigned Int 3; VSigned Int 1; VSigned Int 2] /\
    forall y, In y [VSigned Int 3; VSigned Int 1; VSigned Int 2] ->
      exists c d,
        getComparer (VSigned Int 3) lo y = Ok c /\ (c <= 0)%Z /\
        getComparer (VSigned Int 3) y hi = Ok d /\ (d <= 0)%Z.
Proof.
  apply (@Min_Max_bounds (VSigned Int 3) [VSigned Int 1; VSigned Int 2]).
  apply signed_total_on.
  intros v [<-|[<-|[<-|[]]]]; eexists; reflexivity.
Defined.

(** ** grow *)



(** ** What ToSlice leaves alone *)

Lemma skipn_update_above (A : Type) (i : nat) (x : A) (l : list A) :
  skipn (S i) (reflect.update i x l) = skipn (S i) l.
Proof.
  revert i. induction l as [|y l IH]; intros [|i]; simpl; auto.
  apply (IH i).
Qed.

Lemma skipn_S_eq (A : Type) (i : nat) (l l' : list A) :
  skipn i l = skipn i l' -> skipn (S i) l = skipn (S i) l'.
Proof.
  intros H. change (S i) with (1 + i).
  rewrite <- !skipn_skipn, H. reflexivity.
Qed.

Lemma load_update_other (h : reflect.heap) (a b : nat) (arr : list value) :
  a <> b -> reflect.load (reflect.update a arr h) b = reflect.load h b.
Proof. intros H. apply nth_update_other. assumption. Qed.

(** [grow] either answers a window on the same array, in the same store,
    or appends one array to the store and answers a slice on it. *)
Lemma grow_frame (h h' : reflect.heap) (s s' : reflect.SliceValue)
    (extra : nat) :
  grow h s extra = Ok (h', s') ->
  (h' = h /\ reflect.array s' = reflect.array s) \/
  (exists arr, h' = h ++ [arr] /\ reflect.array s' = List.length h).
Proof.
  unfold grow.
  destruct (reflect.Len s + extra <=? reflect.Cap s).
  - unfold reflect.Slice.
    destruct (reflect.Len s + extra <=? reflect.Cap s); simpl;
      [|discriminate].
    intros H; inversion H; subst. left. auto.
  - destruct (if reflect.Cap s =? 0 then Some extra
              else doubleUntil (reflect.Len s + extra) (reflect.Cap s)
                     (reflect.Len s + extra)) as [c|]; [|discriminate].
    unfold reflect.MakeSlice.
    destruct (reflect.Len s + extra <=? c); simpl; [|discriminate].
    intros H; inversion H; subst. right.
    unfold reflect.Copy; simpl. rewrite update_last.
    eexists. split; reflexivity.
Qed.

Lemma SetIndex_frame (h h' : reflect.heap) (s : reflect.SliceValue)
    (i : nat) (x : value) :
  reflect.SetIndex h s i x = Ok h' ->
  h' = reflect.update (reflect.array s)
         (reflect.update i x (reflect.load h (reflect.array s))) h.
Proof.
  unfold reflect.SetIndex.
  destruct (i <? reflect.Len s); [|discriminate].
  destruct (assignable x (reflect.Elem s)); [|discriminate].
  intros H; inversion H; reflexivity.
Qed.

Lemma ToSlice_step_untouched (N : nat) (h0 : reflect.heap)
    (s0 : reflect.SliceValue) (done : list value)
    (st st' : reflect.heap * reflect.SliceValue * nat) (item : value) :
  wfSlice h0 s0 ->
  ToSlice_inv N h0 s0 done st ->
  ToSlice_untouched h0 s0 st ->
  ToSlice_body item st = Continue st' ->
  ToSlice_inv N h0 s0 (done ++ [item]) st' ->
  ToSlice_untouched h0 s0 st'.
Proof.
  destruct st as [[h s] index], st' as [[h' s'] index'].
  intros (Harr0 & _ & _) (_ & (Harr & _ & _) & _)
         (Hlen & Hwhere & Hother & Hcells) Hbody
         (_ & (Harr' & _ & _) & _).
  unfold ToSlice_body in Hbody.
  (* the store and the slice after the growth step, if any *)
  assert (Hgrow : exists h1 s1,
            reflect.SetIndex h1 s1 index item = Ok h' /\ s' = s1 /\
            index' = index + 1 /\
            ((h1 = h /\ reflect.array s1 = reflect.array s) \/
             (exists arr, h1 = h ++ [arr] /\
                          reflect.array s1 = List.length h))).
  { destruct (reflect.Len s <=? index).
    - destruct (grow h s 1) as [[h1 s1]|] eqn:Hg; [|discriminate].
      cbn [try] in Hbody.
      destruct (reflect.SetIndex h1 s1 index item) eqn:Hs; [|discriminate].
      cbn [try] in Hbody. inversion Hbody; subst.
      exists h1, s'. repeat split; auto.
      eapply grow_frame; eassumption.
    - cbn [try] in Hbody.
      destruct (reflect.SetIndex h s index item) eqn:Hs; [|discriminate].
      cbn [try] in Hbody. inversion Hbody; subst.
      exists h, s'. repeat split; auto. }
  destruct Hgrow as (h1 & s1 & Hset & -> & -> & Hcase).
  apply SetIndex_frame in Hset. subst h'.
  assert (Hlen1 : List.length h <= List.length h1).
  { destruct Hcase as [[-> _]|(arr & -> & _)];
      [lia|rewrite length_app; simpl; lia]. }
  assert (Hload1 : forall a, a < List.length h ->
                             reflect.load h1 a = reflect.load h a).
  { intros a Ha. destruct Hcase as [[-> _]|(arr & -> & _)];
      [reflexivity|apply load_app_old; assumption]. }
  assert (Hwhere1 : reflect.array s1 = reflect.array s0 \/
                    List.length h0 <= reflect.array s1).
  { destruct Hcase as [[_ ->]|(arr & _ & ->)]; [assumption|right; lia]. }
  unfold ToSlice_untouched. rewrite update_length.
  split; [lia|]. split; [assumption|]. split.
  - intros a Ha Hne.
    rewrite load_update_other by (destruct Hwhere1; lia).
    rewrite Hload1 by lia. apply Hother; assumption.
  - rewrite Nat.add_1_r. destruct Hwhere1 as [Heq|Hnew].
    + rewrite <- Heq.
      rewrite load_update_same by (rewrite update_length in Harr'; exact Harr').
      rewrite skipn_update_above, Heq, Hload1 by lia.
      apply skipn_S_eq. assumption.
    + rewrite load_update_other by lia.
      rewrite Hload1 by lia. apply skipn_S_eq. assumption.
Qed.

Lemma ToSlice_loop_untouched (N : nat) (h0 : reflect.heap)
    (s0 : reflect.SliceValue) (rest : list value) :
  wfSlice h0 s0 ->
  forall done st n,
    ToSlice_inv N h0 s0 done st ->
    ToSlice_untouched h0 s0 st ->
    List.length done + List.length rest <= N ->
    Forall (fun item => assignable item (reflect.Elem s0) = true) rest ->
    exists st',
      range_items ToSlice_body rest n st =
      (Continue st', mkIterator [] (S (n + List.length rest))) /\
      ToSlice_inv N h0 s0 (done ++ rest) st' /\
      ToSlice_untouched h0 s0 st'.
Proof.
  intros Hwf0.
  induction rest as [|item rest IH]; intros done st n Hinv Hun HN Hrest.
  - exists st. simpl. rewrite Nat.add_0_r, app_nil_r. auto.
  - inversion Hrest as [|? ? Hitem Hrest']; subst.
    simpl in HN.
    destruct (@ToSlice_step N h0 s0 done st item Hinv) as (st1 & Hbody & Hinv1);
      [lia|assumption|].
    pose proof (@ToSlice_step_untouched N h0 s0 done st st1 item
                  Hwf0 Hinv Hun Hbody Hinv1) as Hun1.
    cbn [range_items]. rewrite Hbody.
    destruct (IH (done ++ [item]) st1 (S n) Hinv1 Hun1)
      as (st' & Hrun & Hinv' & Hun');
      [rewrite length_app; simpl; lia|assumption|].
    exists st'. rewrite Hrun. split; [|split].
    + do 2 f_equal. simpl. lia.
    + rewrite <- app_assoc in Hinv'. exact Hinv'.
    + exact Hun'.
Qed.

(** X20. [ToSlice] writes nowhere but into the destination's array, up
    to the number of elements, and into arrays it allocates itself: every
    other array of the store is left as it was, the cells of the
    destination's array past the last written element keep their
    content, and with an empty sequence the store is unchanged and the
    destination is cut to length zero. *)
Theorem ToSlice_frame (q : Query) (h : reflect.heap)
    (result : reflect.SliceValue) :
  wfSlice h result ->
  Forall (fun item => assignable item (reflect.Elem result) = true) q ->
  exists h' s',
    ToSlice q h result = (Ok (h', s'), S (List.length q)) /\
    (forall a, a < List.length h -> a <> reflect.array result ->
               reflect.load h' a = reflect.load h a) /\
    skipn (List.length q) (reflect.load h' (reflect.array result))
    = skipn (List.length q) (reflect.load h (reflect.array result)) /\
    (q = [] -> h' = h /\ reflect.Len s' = 0 /\
               reflect.array s' = reflect.array result /\
               reflect.Cap s' = reflect.Cap result).
Proof.
  intros Hwf Hq.
  destruct (@ToSlice_loop_untouched (List.length q) h result q Hwf []
              (h, result, 0) 0)
    as ([[h' s1] index] & Hrun & Hinv & Hun).
  - unfold ToSlice_inv. repeat split; try apply Hwf; try lia.
    exists []. rewrite app_nil_r. simpl. auto.
  - unfold ToSlice_untouched. repeat split; auto.
  - simpl. lia.
  - assumption.
  - simpl in Hinv.
    destruct Hinv as (Hindex & (Harr & Hcap & Hlen) & Hle & _).
    destruct Hun as (_ & _ & Hother & Hcells).
    rewrite ToSlice_unfold, Hrun. unfold finish, reflect.Slice.
    destruct (Nat.leb_spec index (reflect.Cap s1)); [|lia].
    simpl. eexists _, _. split; [reflexivity|].
    split; [exact Hother|]. split; [rewrite <- Hindex; exact Hcells|].
    intros ->. simpl in Hrun. inversion Hrun; subst. simpl. auto.
Qed.

Lemma ToSlice_frame_witness :
  exists h' s',
    ToSlice [VSigned Int 1]
      [[VSigned Int 9]; [VSigned Int 7; VSigned Int 8]]
      (reflect.mkSlice 1 2 2 (TSigned Int)) = (Ok (h', s'), 2) /\
    reflect.load h' 0 = [VSigned Int 9] /\
    skipn 1 (reflect.load h' 1) = [VSigned Int 8].
Proof.
  destruct (@ToSlice_frame [VSigned Int 1]
              [[VSigned Int 9]; [VSigned Int 7; VSigned Int 8]]
              (reflect.mkSlice 1 2 2 (TSigned Int)))
    as (h' & s' & Hrun & Hother & Hcells & _).
  - unfold wfSlice; simpl; lia.
  - repeat constructor.
  - exists h', s'. split; [exact Hrun|]. split.
    + apply (Hother 0); simpl; lia.
    + exact Hcells.
Defined.

(** ** ToMapBy *)

Lemma find_app (A : Type) (f : A -> bool) (l1 l2 : list A) :
  find f (l1 ++ l2)
  = match find f l1 with Some x => Some x | None => find f l2 end.
Proof.
  induction l1 as [|x l1 IH]; simpl; [reflexivity|].
  destruct (f x); [reflexivity|apply IH].
Qed.

Lemma find_filter_keep (A : Type) (f keep : A -> bool) (l : list A) :
  (forall x, f x = true -> keep x = true) ->
  find f (filter keep l) = find f l.
Proof.
  intros H. induction l as [|x l IH]; simpl; [reflexivity|].
  destruct (keep x) eqn:Hk; simpl.
  - rewrite IH. reflexivity.
  - destruct (f x) eqn:Hf; [|exact IH].
    rewrite (H x Hf) in Hk. discriminate.
Qed.

Lemma find_filter_none (A : Type) (f keep : A -> bool) (l : list A) :
  (forall x, keep x = true -> f x = false) ->
  find f (filter keep l) = None.
Proof.
  intros H. induction l as [|x l IH]; simpl; [reflexivity|].
  destruct (keep x) eqn:Hk; simpl; [|exact IH].
  rewrite (H x Hk). exact IH.
Qed.

(** Looking up [k] among the entries left by deleting [key]. *)
Lemma find_mapdelete (key k : value) (es : list (value * value)) :
  find (fun e => go_eq (fst e) k) (mapdelete key es)
  = if go_eq key k then None else find (fun e => go_eq (fst e) k) es.
Proof.
  unfold mapdelete. destruct (go_eq key k) eqn:Hk.
  - apply find_filter_none. intros e He.
    destruct (go_eq (fst e) k) eqn:Hek; [|reflexivity].
    rewrite (go_eq_sym key k) in Hk.
    rewrite (go_eq_trans _ _ _ Hek Hk) in He. discriminate.
  - apply find_filter_keep. intros e He.
    destruct (go_eq (fst e) key) eqn:Hek; [|reflexivity].
    rewrite (go_eq_sym (fst e) key) in Hek.
    rewrite (go_eq_trans _ _ _ Hek He) in Hk. discriminate.
Qed.

(** One assignment: the new element under every key equal to [key], the
    old content under every other key. *)
Lemma SetMapIndex_store (m : MapValue) (es : list (value * value))
    (key elem : value) :
  entries m = Some es ->
  assignable key (KeyType m) = true ->
  elem <> VNil ->
  assignable elem (ElemType m) = true ->
  exists m',
    SetMapIndex m key elem = Ok m' /\
    KeyType m' = KeyType m /\ ElemType m' = ElemType m /\
    (exists es', entries m' = Some es') /\
    forall k, MapIndex m' k = if go_eq key k then Some elem else MapIndex m k.
Proof.
  intros Hes Hkey Hnil Helem. unfold SetMapIndex.
  rewrite Hkey, Helem, Hes.
  destruct elem; try congruence;
    (eexists; split; [reflexivity|]; simpl;
     split; [reflexivity|]; split; [reflexivity|];
     split; [eexists; reflexivity|];
     intros key'; unfold MapIndex; simpl;
     rewrite Hes, find_app, find_mapdelete;
     simpl; destruct (go_eq key key'); simpl;
     [reflexivity
     |destruct (find (fun e => go_eq (fst e) key') es); reflexivity]).
Qed.

(** One deletion: nothing under the keys equal to [key], the old content
    under every other key; a nil map stays nil. *)
Lemma SetMapIndex_delete (m : MapValue) (key : value) :
  assignable key (KeyType m) = true ->
  exists m',
    SetMapIndex m key VNil = Ok m' /\
    KeyType m' = KeyType m /\ ElemType m' = ElemType m /\
    forall k, MapIndex m' k = if go_eq key k then None else MapIndex m k.
Proof.
  intros Hkey. unfold SetMapIndex. rewrite Hkey.
  eexists. split; [reflexivity|]. simpl.
  split; [reflexivity|]. split; [reflexivity|].
  intros k. unfold MapIndex; simpl.
  destruct (entries m) as [es|]; simpl.
  - rewrite find_mapdelete. destruct (go_eq key k); reflexivity.
  - destruct (go_eq key k); reflexivity.
Qed.

(** One call of [SetMapIndex] on a map that is not nil. *)
Lemma SetMapIndex_step (m : MapValue) (es : list (value * value))
    (key elem : value) :
  entries m = Some es ->
  assignable key (KeyType m) = true ->
  elem = VNil \/ assignable elem (ElemType m) = true ->
  exists m',
    SetMapIndex m key elem = Ok m' /\
    KeyType m' = KeyType m /\ ElemType m' = ElemType m /\
    (exists es', entries m' = Some es') /\
    forall k, MapIndex m' k = if go_eq key k then stored elem else MapIndex m k.
Proof.
  intros Hes Hkey [->|Helem].
  - destruct (SetMapIndex_delete m key Hkey) as (m' & Hset & HK & HE & Hget).
    exists m'. repeat (split; [assumption|]). split; [|exact Hget].
    unfold SetMapIndex in Hset. rewrite Hkey, Hes in Hset.
    inversion Hset. simpl. eauto.
  - assert (Hnil : elem <> VNil) by (intros ->; discriminate).
    destruct (SetMapIndex_store m key Hes Hkey Hnil Helem)
      as (m' & Hset & HK & HE & Hes' & Hget).
    exists m'. repeat (split; [assumption|]).
    intros k. rewrite Hget. destruct elem; try reflexivity. congruence.
Qed.

Lemma ToMapBy_loop (kf vf : value -> value) (items : list value) :
  forall (m : MapValue) (n : nat),
    (exists es, entries m = Some es) ->
    Forall (fun x => assignable (kf x) (KeyType m) = true /\
                     (vf x = VNil \/
                      assignable (vf x) (ElemType m) = true)) items ->
    exists m',
      range_items (fun item m =>
        try (Ok (kf item)) (fun key =>
        try (Ok (vf item)) (fun value =>
        try (SetMapIndex m key value) (fun m =>
          Continue (R := MapValue) m)))) items n m
      = (Continue m', mkIterator [] (S (n + List.length items))) /\
      KeyType m' = KeyType m /\ ElemType m' = ElemType m /\
      (exists es', entries m' = Some es') /\
      forall k,
        MapIndex m' k
        = match find (fun x => go_eq (kf x) k) (rev items) with
          | Some x => stored (vf x)
          | None => MapIndex m k
          end.
Proof.
  induction items as [|item rest IH]; intros m n [es Hes] Hitems.
  - exists m. simpl. rewrite Nat.add_0_r. eauto 6.
  - inversion Hitems as [|? ? (Hk & Hv) Hrest]; subst.
    destruct (SetMapIndex_step m (kf item) Hes Hk Hv)
      as (m1 & Hset & HK & HE & Hes1 & Hget1).
    destruct (IH m1 (S n) Hes1) as (m' & Hrun & HK' & HE' & Hes' & Hget').
    { rewrite HK, HE. exact Hrest. }
    exists m'. split.
    { cbn [range_items try]. rewrite Hset. cbn [try].
      etransitivity; [exact Hrun|]. do 2 f_equal. simpl. lia. }
    split; [congruence|]. split; [congruence|]. split; [assumption|].
    intros k. rewrite Hget'. simpl rev. rewrite find_app.
    destruct (find (fun x => go_eq (kf x) k) (rev rest)); [reflexivity|].
    simpl. rewrite Hget1. destruct (go_eq (kf item) k); reflexivity.
Qed.

(** X21. [ToMapBy] does not empty the map and the last write wins.  On
    a map that is not nil, when every element yields a key assignable to
    the key type and a value that is nil or assignable to the element
    type, the map left holds, under each key, what the last element of
    the sequence with that key put there (its value, or nothing when its
    value is nil: a nil value deletes the entry), and what the map held
    before under the keys of no element.  The sequence is read once;
    with an empty sequence the map is left as it is. *)
Theorem ToMapBy_last_write_wins (q : Query) (m : MapValue)
    (kf vf : value -> value) :
  (exists es, entries m = Some es) ->
  Forall (fun x => assignable (kf x) (KeyType m) = true /\
                   (vf x = VNil \/
                    assignable (vf x) (ElemType m) = true)) q ->
  exists m',
    ToMapBy q m (fun x => Ok (kf x)) (fun x => Ok (vf x))
    = (Ok m', S (List.length q)) /\
    KeyType m' = KeyType m /\ ElemType m' = ElemType m /\
    (forall k,
        MapIndex m' k
        = match find (fun x => go_eq (kf x) k) (rev q) with
          | Some x => stored (vf x)
          | None => MapIndex m k
          end) /\
    (q = [] -> m' = m).
Proof.
  intros Hes Hq.
  destruct (ToMapBy_loop kf vf m 0 Hes Hq)
    as (m' & Hrun & HK & HE & _ & Hget).
  exists m'. unfold ToMapBy, for_next, Iterate. simpl pending; simpl calls.
  rewrite Hrun. repeat split; auto.
  intros ->. simpl in Hrun. inversion Hrun. reflexivity.
Qed.

Lemma ToMapBy_last_write_wins_witness :
  exists m',
    ToMapBy [VSigned Int 1; VSigned Int 2; VSigned Int 11; VSigned Int 7]
      (mkMap (TSigned Int) (TSigned Int)
         (Some [(VSigned Int 7, VSigned Int 70);
                (VSigned Int 8, VSigned Int 80)]))
      (fun x => Ok (VSigned Int (intOf x mod 10)))
      (fun x => Ok (if (intOf x =? 7)%Z then VNil else x))
    = (Ok m', 5) /\
    MapIndex m' (VSigned Int 1) = Some (VSigned Int 11) /\
    MapIndex m' (VSigned Int 7) = None /\
    MapIndex m' (VSigned Int 8) = Some (VSigned Int 80).
Proof.
  destruct (@ToMapBy_last_write_wins
              [VSigned Int 1; VSigned Int 2; VSigned Int 11; VSigned Int 7]
              (mkMap (TSigned Int) (TSigned Int)
                 (Some [(VSigned Int 7, VSigned Int 70);
                        (VSigned Int 8, VSigned Int 80)]))
              (fun x => VSigned Int (intOf x mod 10))
              (fun x => if (intOf x =? 7)%Z then VNil else x))
    as (m' & Hrun & _ & _ & Hget & _).
  - eexists; reflexivity.
  - repeat (apply Forall_cons;
      [split; [reflexivity
              |simpl; first [left; reflexivity|right; reflexivity]]|]).
    apply Forall_nil.
  - exists m'. split; [exact Hrun|].
    repeat split; rewrite Hget; reflexivity.
Defined.

(** X22. [ToMapBy] checks nothing itself; the first element whose key or
    value the map cannot take makes it panic, after a single cursor call
    when that is the first element of the sequence: a key that is nil or
    not assignable to the key type, a value that is neither nil nor
    assignable to the element type, or any storable value when the map
    is nil. *)
Theorem ToMapBy_refuses (x : value) (rest : list value) (m : MapValue)
    (ks vs : selector) (key elem : value) :
  ks x = Ok key ->
  vs x = Ok elem ->
  (assignable key (KeyType m) = false ->
   exists msg, ToMapBy (x :: rest) m ks vs = (Panic msg, 1)) /\
  (assignable key (KeyType m) = true ->
   elem <> VNil ->
   assignable elem (ElemType m) = false ->
   exists msg, ToMapBy (x :: rest) m ks vs = (Panic msg, 1)) /\
  (assignable key (KeyType m) = true ->
   assignable elem (ElemType m) = true ->
   entries m = None ->
   ToMapBy (x :: rest) m ks vs
   = (Panic "assignment to entry in nil map", 1)).
Proof.
  intros Hks Hvs.
  unfold ToMapBy, for_next, Iterate; simpl pending; simpl calls.
  cbn [range_items]. rewrite Hks, Hvs. cbn [try]. unfold SetMapIndex.
  split; [|split].
  - intros ->. eexists. reflexivity.
  - intros -> Hnil ->. destruct elem; try congruence; eexists; reflexivity.
  - intros -> Helem ->. rewrite Helem.
    destruct elem; try reflexivity. discriminate.
Qed.

Lemma ToMapBy_refuses_witness :
  ToMapBy [VSigned Int 1; VSigned Int 2]
    (mkMap (TSigned Int) (TSigned Int) None)
    (fun x => Ok x) (fun x => Ok x)
  = (Panic "assignment to entry in nil map", 1).
Proof.
  refine (proj2 (proj2 (@ToMapBy_refuses (VSigned Int 1) [VSigned Int 2]
                          (mkMap (TSigned Int) (TSigned Int) None)
                          (fun x => Ok x) (fun x => Ok x)
                          (VSigned Int 1) (VSigned Int 1) _ _)) _ _ _);
    reflexivity.
Defined.

(** ** ToMapByT *)

Lemma ToMapBy_ext (q : Query) (m : MapValue) (ks ks' vs vs' : selector) :
  (forall item, In item q -> ks item = ks' item) ->
  (forall item, In item q -> vs item = vs' item) ->
  ToMapBy q m ks vs = ToMapBy q m ks' vs'.
Proof.
  intros Hk Hv. unfold ToMapBy, for_next, Iterate; simpl.
  f_equal. apply range_items_ext.
  intros item s Hin. rewrite (Hk item Hin), (Hv item Hin). reflexivity.
Qed.

Lemma Call_typedSelector (T U : gotype) (f : selector) (item : value) :
  assignable item T = true ->
  Call (mkGenericFunc (typedSelector T U f)) item = f item.
Proof.
  intros Hassign. unfold Call; simpl. rewrite Hassign.
  destruct (f item); reflexivity.
Qed.

Lemma newGenericFunc_refuses_selector (methodName paramName : string)
    (fn : argument) :
  ~ selectorShape fn ->
  exists err,
    newGenericFunc methodName paramName fn
      (simpleParamValidator (newElemTypeSlice [genericType])
                            (newElemTypeSlice [genericType]))
    = inr err.
Proof.
  intros Hbad. destruct fn as [v|f]; simpl.
  - eexists; reflexivity.
  - unfold simpleParamValidator, newElemTypeSlice.
    destruct (shapeMatches [genericType] (TypesIn f)
              && shapeMatches [genericType] (TypesOut f)) eqn:E.
    + exfalso. apply Hbad. simpl.
      apply andb_true_iff in E. destruct E as [Ein Eout].
      destruct (TypesIn f) as [|t [|t' ins]]; simpl in Ein; try discriminate.
      destruct (TypesOut f) as [|o [|o' outs]]; simpl in Eout;
        try discriminate.
      auto.
    + eexists; reflexivity.
Qed.

(** X23. [ToMapByT] with the functions [func(x T) U { return kf(x) }] and
    [func(x T') V { return vf(x) }], on a sequence whose elements both
    parameters accept, does what [ToMapBy] does with [kf] and [vf].  When
    either argument is not a function of one parameter and one result it
    panics before the cursor is called, the key selector being checked
    first. *)
Theorem ToMapByT_spec :
  (forall q m T U T' V (kf vf : selector),
      Forall (fun item => assignable item T = true /\
                          assignable item T' = true) q ->
      ToMapByT q m (Func (typedSelector T U kf)) (Func (typedSelector T' V vf))
      = ToMapBy q m kf vf) /\
  (forall q m keySelectorFn valueSelectorFn,
      ~ selectorShape keySelectorFn \/ ~ selectorShape valueSelectorFn ->
      panicsBeforeReading (ToMapByT q m keySelectorFn valueSelectorFn)) /\
  (forall q m keySelectorFn valueSelectorFn,
      ~ selectorShape keySelectorFn ->
      exists err,
        ToMapByT q m keySelectorFn valueSelectorFn = (Panic err, 0) /\
        newGenericFunc "ToMapByT" "keySelectorFn" keySelectorFn
          (simpleParamValidator (newElemTypeSlice [genericType])
                                (newElemTypeSlice [genericType]))
        = inr err).
Proof.
  split; [|split].
  - intros q m T U T' V kf vf Hq. rewrite Forall_forall in Hq.
    unfold ToMapByT. simpl newGenericFunc. cbv iota beta.
    apply ToMapBy_ext; intros item Hin; apply Call_typedSelector;
      apply (Hq item Hin).
  - intros q m kfn vfn Hbad. unfold panicsBeforeReading, ToMapByT.
    destruct (newGenericFunc "ToMapByT" "keySelectorFn" kfn _)
      as [g|err] eqn:Hk; [|eexists; reflexivity].
    destruct (newGenericFunc "ToMapByT" "valueSelectorFn" vfn _)
      as [g'|err] eqn:Hv; [|eexists; reflexivity].
    exfalso. destruct Hbad as [Hbad|Hbad].
    + destruct (@newGenericFunc_refuses_selector "ToMapByT" "keySelectorFn"
                  kfn Hbad) as [err Herr].
      rewrite Herr in Hk. discriminate.
    + destruct (@newGenericFunc_refuses_selector "ToMapByT" "valueSelectorFn"
                  vfn Hbad) as [err Herr].
      rewrite Herr in Hv. discriminate.
  - intros q m kfn vfn Hbad.
    destruct (@newGenericFunc_refuses_selector "ToMapByT" "keySelectorFn"
                kfn Hbad) as [err Herr].
    exists err. unfold ToMapByT. rewrite Herr. auto.
Qed.

Lemma ToMapByT_spec_witness :
  ToMapByT [VSigned Int 1; VSigned Int 2]
    (mkMap (TSigned Int) TString (Some []))
    (Func (typedSelector (TSigned Int) (TSigned Int) (fun x => Ok x)))
    (Func (typedSelector TInterface TString (fun _ => Ok (VString "v"))))
  = ToMapBy [VSigned Int 1; VSigned Int 2]
      (mkMap (TSigned Int) TString (Some []))
      (fun x => Ok x) (fun _ => Ok (VString "v"))
  /\ panicsBeforeReading
       (ToMapByT [VSigned Int 1; VSigned Int 2]
          (mkMap (TSigned Int) TString (Some []))
          (Plain (VSigned Int 0))
          (Func (typedSelector TInterface TString
                   (fun _ => Ok (VString "v"))))).
Proof.
  split.
  - apply (proj1 ToMapByT_spec). repeat constructor.
  - apply (proj1 (proj2 ToMapByT_spec)). left. simpl. tauto.
Defined.

(** ** Membership *)



(** ** A channel that is already closed *)

(** X25. On a channel that is already closed [ToChannel] panics and
    performs no operation: on the first send when the sequence has an
    element, after a single cursor call, and on the close when the
    sequence is empty. *)
Theorem ToChannel_closed (q : Query) (ch : channel) :
  closed ch = true ->
  ToChannel q ch
  = (Panic (match q with
            | [] => "close of closed channel"
            | _ => "send on closed channel"
            end), 1).
Proof.
  intros Hclosed. unfold ToChannel, for_next, Iterate; simpl.
  destruct q as [|x rest]; simpl.
  - unfold close. rewrite Hclosed. reflexivity.
  - unfold send. rewrite Hclosed. reflexivity.
Qed.

Lemma ToChannel_closed_witness :
  ToChannel [VSigned Int 1] [Send (VSigned Int 0); Close]
  = (Panic "send on closed channel", 1).
Proof.
  apply (@ToChannel_closed [VSigned Int 1] [Send (VSigned Int 0); Close]).
  reflexivity.
Defined.

(** ** The integer sums and the order of the elements *)

Lemma sumOf_app (q q' : list value) : sumOf (q ++ q') = (sumOf q + sumOf q')%Z.
Proof. induction q as [|x q IH]; simpl; [reflexivity|]. rewrite IH. lia. Qed.

Lemma sumOf_Permutation (q q' : list value) :
  Permutation q q' -> sumOf q = sumOf q'.
Proof.
  induction 1; simpl; try lia.
Qed.

Lemma wrap64_add (a b : Z) : wrap64 (a + b) = wrap64 (wrap64 a + wrap64 b).
Proof.
  rewrite wrap64_add_l, (Z.add_comm a (wrap64 b)), wrap64_add_l.
  f_equal. lia.
Qed.

Lemma wrapu64_add (a b : Z) :
  wrapu64 (a + b) = wrapu64 (wrapu64 a + wrapu64 b).
Proof.
  rewrite wrapu64_add_l, (Z.add_comm a (wrapu64 b)), wrapu64_add_l.
  f_equal. lia.
Qed.

(** X26. The integer sums do not depend on the order of the elements,
    wrap-around included: [SumInts] (and [SumUInts]) of a rearrangement
    of a sequence of signed (unsigned) integers is the same number, and
    the sum of two such sequences put end to end is the [int64]
    ([uint64]) sum of their sums. *)
Theorem integer_sums_ignore_order :
  (forall q q',
      Permutation q q' ->
      Forall (fun v => isSigned v /\ wf_value v) q ->
      fst (SumInts q) = fst (SumInts q')) /\
  (forall q q',
      Permutation q q' ->
      Forall (fun v => isUnsigned v /\ wf_value v) q ->
      fst (SumUInts q) = fst (SumUInts q')) /\
  (forall q q' s s',
      Forall (fun v => isSigned v /\ wf_value v) (q ++ q') ->
      fst (SumInts q) = Ok s -> fst (SumInts q') = Ok s' ->
      fst (SumInts (q ++ q')) = Ok (add64 s s')) /\
  (forall q q' s s',
      Forall (fun v => isUnsigned v /\ wf_value v) (q ++ q') ->
      fst (SumUInts q) = Ok s -> fst (SumUInts q') = Ok s' ->
      fst (SumUInts (q ++ q')) = Ok (addu64 s s')).
Proof.
  assert (HS : forall q, Forall (fun v => isSigned v /\ wf_value v) q ->
                         fst (SumInts q) = Ok (wrap64 (sumOf q))).
  { intros [|x q] Hq; [reflexivity|].
    rewrite SumInts_wrapped by (auto; discriminate). reflexivity. }
  assert (HU : forall q, Forall (fun v => isUnsigned v /\ wf_value v) q ->
                         fst (SumUInts q) = Ok (wrapu64 (sumOf q))).
  { intros [|x q] Hq; [reflexivity|].
    rewrite SumUInts_wrapped by (auto; discriminate). reflexivity. }
  split; [|split; [|split]].
  - intros q q' Hperm Hq.
    rewrite (HS q Hq), (HS q' (Permutation_Forall Hperm Hq)).
    rewrite (sumOf_Permutation Hperm). reflexivity.
  - intros q q' Hperm Hq.
    rewrite (HU q Hq), (HU q' (Permutation_Forall Hperm Hq)).
    rewrite (sumOf_Permutation Hperm). reflexivity.
  - intros q q' s s' Hq. pose proof Hq as Hq'.
    apply Forall_app in Hq'. destruct Hq' as [H1 H2].
    rewrite (HS _ Hq), (HS _ H1), (HS _ H2), sumOf_app.
    intros E1 E2. inversion E1; inversion E2; subst.
    unfold add64. rewrite <- wrap64_add. reflexivity.
  - intros q q' s s' Hq. pose proof Hq as Hq'.
    apply Forall_app in Hq'. destruct Hq' as [H1 H2].
    rewrite (HU _ Hq), (HU _ H1), (HU _ H2), sumOf_app.
    intros E1 E2. inversion E1; inversion E2; subst.
    unfold addu64. rewrite <- wrapu64_add. reflexivity.
Qed.

Lemma integer_sums_ignore_order_witness :
  fst (SumInts [VSigned Int64 (2 ^ 63 - 1); VSigned Int8 1; VSigned Int8 (-1)])
  = fst (SumInts [VSigned Int8 1; VSigned Int8 (-1); VSigned Int64 (2 ^ 63 - 1)]).
Proof.
  apply (proj1 integer_sums_ignore_order).
  - change [VSigned Int8 1; VSigned Int8 (-1); VSigned Int64 (2 ^ 63 - 1)]
      with ([VSigned Int8 1; VSigned Int8 (-1)]
            ++ [VSigned Int64 (2 ^ 63 - 1)]).
    apply (Permutation_cons_app _ _ _).
    rewrite app_nil_r. apply Permutation_refl.
  - repeat constructor; simpl; lia.
Defined.

(** The float sum does depend on the order. *)
Example SumFloats_depends_on_order :
  SumFloats [VFloat Float64 9007199254740992; VFloat Float64 (-9007199254740992);
             VFloat Float64 1]
  = (Ok 1%float, 4) /\
  SumFloats [VFloat Float64 9007199254740992; VFloat Float64 1;
             VFloat Float64 (-9007199254740992)]
  = (Ok 0%float, 4).
Proof. split; vm_compute; reflexivity. Qed.
